(** * StudentTracker: a shallow embedding of [main.cpp]

    The development follows the layout of the source file: exception
    classes, the C-style helpers and validators, [Marks] and [Student],
    the [Course] linked list, the two quicksorts over a [Student*] array
    and the name trie.

    Modelling conventions.
    - A C string is the Rocq [string] of its bytes before the terminating
      NUL; a [const char*] parameter that the code tests against null is an
      [option string].
    - [int] values are integers in [Z].  The length of a string is a
      [size_t]; where the source stores it in an [int] the model applies
      [toInt], the reduction modulo 2^32 that g++ performs.  Array indices
      stay far below 2^31 for any roster that fits in memory.
    - A [double] mark is a [double] of the model: a finite value, kept as
      the rational it is, an infinity, or a NaN, on which [<] and [>] are
      false.  The code compares marks and never adds them, except in
      [Marks::total], whose value is only printed; the floating-point sum
      is not modelled.
    - A [Student*] array is the list of the records it points to; no sort
      writes through the pointers. *)

From Stdlib Require Import String Ascii ZArith QArith_base Lia Lqa.
From stdpp Require Import list sorting.

Local Close Scope Q_scope.
Local Open Scope string_scope.
Local Open Scope list_scope.
Local Open Scope Z_scope.

(** ** Exception classes *)

Inductive StudentException : Type :=
| BufferOverflowException
| NoSecondNameException
| InvalidSecondNameException
| InvalidRollException
| RollNotFoundException.

(** A call returns, throws, or writes past the end of a buffer, after which
    the behaviour of the source is undefined. *)
Inductive result (A : Type) : Type :=
| Ok (a : A)
| Throw (e : StudentException)
| Overrun.
Arguments Ok {A} a.
Arguments Throw {A} e.
Arguments Overrun {A}.

#[global] Instance result_bind : MBind result := fun A B k r =>
  match r with
  | Ok a => k a
  | Throw e => Throw e
  | Overrun => Overrun
  end.

(** ** <cctype> in the "C" locale and <cstring> *)

(** [(unsigned char)c] *)
Definition uchar (c : ascii) : Z := Z.of_N (N_of_ascii c).

Definition isupper (c : ascii) : bool := (65 <=? uchar c) && (uchar c <=? 90).
Definition islower (c : ascii) : bool := (97 <=? uchar c) && (uchar c <=? 122).
Definition isalpha (c : ascii) : bool := isupper c || islower c.
Definition isdigit (c : ascii) : bool := (48 <=? uchar c) && (uchar c <=? 57).
Definition isalnum (c : ascii) : bool := isalpha c || isdigit c.
Definition isspace (c : ascii) : bool :=
  (uchar c =? 32) || ((9 <=? uchar c) && (uchar c <=? 13)).
Definition tolower (c : ascii) : Z :=
  if isupper c then uchar c + 32 else uchar c.

Definition strlen (s : string) : Z := Z.of_nat (String.length s).

(** The conversion of a [size_t] value to [int]: reduction modulo 2^32 into
    the range of [int]. *)
Definition toInt (z : Z) : Z := (z + 2147483648) mod 4294967296 - 2147483648.

(** The bytes [s[0]], ..., [s[n-1]] that a loop [for (int i=0;i<n;i++)]
    visits; none when [n] is zero or negative. *)
Fixpoint firstBytes (n : nat) (s : string) : string :=
  match n, s with
  | S n', String c s' => String c (firstBytes n' s')
  | _, _ => EmptyString
  end.

Definition visited (n : Z) (s : string) : string := firstBytes (Z.to_nat n) s.

(** [strcmp] compares the bytes as unsigned char.  The standard fixes only
    the sign of the result; the model returns -1, 0 or 1. *)
Fixpoint strcmp (a b : string) : Z :=
  match a, b with
  | EmptyString, EmptyString => 0
  | EmptyString, String _ _ => -1
  | String _ _, EmptyString => 1
  | String x a', String y b' =>
      if uchar x <? uchar y then -1
      else if uchar y <? uchar x then 1
      else strcmp a' b'
  end.

(** ** Helper functions (C-style) *)

Definition isValidNameChar (c : ascii) : bool :=
  isalpha c || Ascii.eqb c " " || Ascii.eqb c "-".

Definition isValidRollChar (c : ascii) : bool :=
  isalnum c || Ascii.eqb c "/" || Ascii.eqb c "-".

(** [strcpy(dst, src)] into a buffer of [cap] bytes: the string and its
    terminator fit, or the copy runs past the end of the buffer. *)
Definition strcpy (cap : Z) (dst src : string) : string * result unit :=
  if strlen src <? cap then (src, Ok tt) else (src, Overrun).

(** [safeStrCpy(dst, src, maxlen)]: the state is the destination buffer,
    whose capacity the callers pass as [maxlen]; the length test, on
    [int len], comes before [strcpy], so a throw leaves [dst] as it was. *)
Definition safeStrCpy (dst src : string) (maxlen : Z)
  : string * result unit :=
  let len := toInt (strlen src) in
  if maxlen <=? len then (dst, Throw BufferOverflowException)
  else strcpy maxlen dst src.

(** State of the first loop of [validateName].  [lastWordStart] (and
    [wordStart] in the second loop) is written and never read; it is left
    out. *)
Record wordScan : Type := mkWordScan { words : Z; inword : bool }.

Fixpoint nameLoop1 (s : string) (st : wordScan) : result wordScan :=
  match s with
  | EmptyString => Ok st
  | String c s' =>
      if negb (isValidNameChar c) then Throw InvalidSecondNameException
      else if negb (isspace c) && negb (inword st)
      then nameLoop1 s' (mkWordScan (words st + 1) true)
      else if isspace c then nameLoop1 s' (mkWordScan (words st) false)
      else nameLoop1 s' st
  end.

(** The inner [while (j < n && !isspace(name[j]))] of the second loop,
    started at the first character of the second word. *)
Fixpoint checkSecondWord (s : string) : result unit :=
  match s with
  | EmptyString => Ok tt
  | String c s' =>
      if isspace c then Ok tt
      else if negb (isalpha c) && negb (Ascii.eqb c "-")
      then Throw InvalidSecondNameException
      else checkSecondWord s'
  end.

Fixpoint nameLoop2 (s : string) (wordCount : Z) (inw : bool) : result unit :=
  match s with
  | EmptyString => Ok tt
  | String c s' =>
      if negb (isspace c) && negb inw then
        if wordCount + 1 =? 2 then checkSecondWord s
        else nameLoop2 s' (wordCount + 1) true
      else if isspace c then nameLoop2 s' wordCount false
      else nameLoop2 s' wordCount inw
  end.

(** [int n = strlen(name)]: both loops run over the first [n] bytes. *)
Definition validateName (name : option string) : result unit :=
  match name with
  | None => Throw NoSecondNameException
  | Some s =>
      if strlen s =? 0 then Throw NoSecondNameException
      else
        let n := toInt (strlen s) in
        st ← nameLoop1 (visited n s) (mkWordScan 0 false);
        if words st <? 2 then Throw NoSecondNameException
        else nameLoop2 (visited n s) 0 false
  end.

Fixpoint rollLoop (s : string) : result unit :=
  match s with
  | EmptyString => Ok tt
  | String c s' =>
      if negb (isValidRollChar c) then Throw InvalidRollException
      else rollLoop s'
  end.

(** The loop is bounded by [(int)strlen(roll)]. *)
Definition validateRoll (roll : option string) : result unit :=
  match roll with
  | None => Throw InvalidRollException
  | Some s =>
      if strlen s =? 0 then Throw InvalidRollException
      else rollLoop (visited (toInt (strlen s)) s)
  end.

(** ** Marks and student classes *)

Inductive Branch : Type := BR_CSE | BR_ECE.

Definition NAME_MAX : Z := 64.
Definition ROLL_MAX : Z := 32.

(** A [double]; an integer literal of the source is the finite double of
    that value. *)
Inductive double : Type :=
| DNegInf
| DFinite (q : Q)
| DPosInf
| DNaN.

Definition ofInt (z : Z) : double := DFinite (inject_Z z).
Coercion ofInt : Z >-> double.

Record Marks : Type := mkMarks {
  assignment : double;
  midterm : double;
  lab : double;
  finalexam : double
}.

Definition Marks0 : Marks := mkMarks 0 0 0 0.

(** The dynamic class of a [Student] object. *)
Inductive StudentClass : Type := BTechStudent | MTechStudent | PhDStudent.

Record Student : Type := mkStudent {
  cls : StudentClass;
  name : string;
  roll : string;
  branch : Branch;
  marks : Marks;
  level : Z
}.

Definition newStudent (k : StudentClass) : Student :=
  mkStudent k "" "" BR_CSE Marks0
    match k with BTechStudent => 0 | MTechStudent => 1 | PhDStudent => 2 end.

Definition type (s : Student) : string :=
  match cls s with
  | BTechStudent => "BTech"
  | MTechStudent => "MTech"
  | PhDStudent => "PhD"
  end.

Definition getName (s : Student) : string := name s.
Definition getRoll (s : Student) : string := roll s.
Definition getMarks (s : Student) : Marks := marks s.

Definition withName (s : Student) (nm : string) : Student :=
  mkStudent (cls s) nm (roll s) (branch s) (marks s) (level s).
Definition withRoll (s : Student) (r : string) : Student :=
  mkStudent (cls s) (name s) r (branch s) (marks s) (level s).
Definition setBranch (b : Branch) (s : Student) : Student :=
  mkStudent (cls s) (name s) (roll s) b (marks s) (level s).
Definition setLevel (lv : Z) (s : Student) : Student :=
  mkStudent (cls s) (name s) (roll s) (branch s) (marks s) lv.
Definition setMarks (m : Marks) (s : Student) : Student :=
  mkStudent (cls s) (name s) (roll s) (branch s) m (level s).

(** A setter is a state transformer on the object: it returns the object
    after the call together with the outcome of the call.  The validators
    reject the null pointer, so [safeStrCpy] only sees a string. *)
Definition setName (nm : option string) (s : Student)
  : Student * result unit :=
  match validateName nm with
  | Throw e => (s, Throw e)
  | Overrun => (s, Overrun)
  | Ok _ =>
      let '(buf, r) := safeStrCpy (name s) (default EmptyString nm) NAME_MAX in
      (withName s buf, r)
  end.

Definition setRoll (r : option string) (s : Student)
  : Student * result unit :=
  match validateRoll r with
  | Throw e => (s, Throw e)
  | Overrun => (s, Overrun)
  | Ok _ =>
      let '(buf, res) := safeStrCpy (roll s) (default EmptyString r) ROLL_MAX in
      (withRoll s buf, res)
  end.

(** ** Storage: singly linked list of students

    A [Course] is its chain of nodes, head first.  The private [count] is
    kept equal to the number of nodes by every member function, so [size]
    is the length of the chain. *)

Definition Course : Type := list Student.

Definition newCourse : Course := [].

(** [operator+=]: insert at head. *)
Definition Course_add (s : Student) (c : Course) : Course := s :: c.

Fixpoint findByRoll (c : Course) (r : string) : option Student :=
  match c with
  | [] => None
  | s :: next =>
      if strcmp (getRoll s) r =? 0 then Some s else findByRoll next r
  end.

(** [operator()] *)
Definition Course_call (c : Course) (r : string) : result Student :=
  match findByRoll c r with
  | Some s => Ok s
  | None => Throw RollNotFoundException
  end.

Definition size (c : Course) : Z := Z.of_nat (length c).

(** [exportArray]: [None] is the null pointer returned for an empty course. *)
Definition exportArray (c : Course) : option (list Student) :=
  if size c =? 0 then None else Some c.

Fixpoint removeByRoll (c : Course) (r : string) : Course * bool :=
  match c with
  | [] => ([], false)
  | s :: next =>
      if strcmp (getRoll s) r =? 0 then (next, true)
      else let '(next', found) := removeByRoll next r in (s :: next', found)
  end.

(** The courses that a sequence of [+=] builds, first added first. *)
Definition addAll (adds : list Student) : Course :=
  foldl (fun c s => Course_add s c) newCourse adds.

(** ** Sorting utilities *)

Inductive MarkComponent : Type := MC_ASSIGN | MC_MID | MC_LAB | MC_FINAL.

Definition getComponent (s : Student) (mc : MarkComponent) : double :=
  match mc with
  | MC_ASSIGN => assignment (getMarks s)
  | MC_MID => midterm (getMarks s)
  | MC_LAB => lab (getMarks s)
  | MC_FINAL => finalexam (getMarks s)
  end.

(** [x < y] on rationals, and [da < db] on doubles: false as soon as one
    side is a NaN. *)
Definition Qltb (x y : Q) : bool := negb (Qle_bool y x).

Definition dlt (x y : double) : bool :=
  match x, y with
  | DNaN, _ | _, DNaN => false
  | _, DNegInf => false
  | DNegInf, _ => true
  | DPosInf, _ => false
  | _, DPosInf => true
  | DFinite a, DFinite b => Qltb a b
  end.

Definition cmpByRollPtr (a b : Student) : Z := strcmp (getRoll a) (getRoll b).

Definition cmpByMarksPtrFactory (a b : Student) (mc : MarkComponent) : Z :=
  let da := getComponent a mc in
  let db := getComponent b mc in
  if dlt da db then -1
  else if dlt db da then 1
  else strcmp (getRoll a) (getRoll b).

(** Array code runs in a monad with two failures: [Fault] is an access
    outside the array (undefined behaviour in the source), [Timeout] is the
    model running out of fuel. *)
Inductive outcome (A : Type) : Type :=
| Done (a : A)
| Fault
| Timeout.
Arguments Done {A} a.
Arguments Fault {A}.
Arguments Timeout {A}.

#[global] Instance outcome_bind : MBind outcome := fun A B k r =>
  match r with
  | Done a => k a
  | Fault => Fault
  | Timeout => Timeout
  end.

Definition readAt {A} (arr : list A) (i : Z) : outcome A :=
  if i <? 0 then Fault
  else match arr !! Z.to_nat i with
       | Some x => Done x
       | None => Fault
       end.

Definition writeAt {A} (arr : list A) (i : Z) (x : A) : outcome (list A) :=
  if (0 <=? i) && (i <? Z.of_nat (length arr))
  then Done (<[Z.to_nat i := x]> arr)
  else Fault.

Definition quickSwap (arr : list Student) (i j : Z) : outcome (list Student) :=
  t ← readAt arr i;
  y ← readAt arr j;
  arr1 ← writeAt arr i y;
  writeAt arr1 j t.

(** [quickSortRoll] and [quickSortMarks] are the same text up to the pivot
    they keep ([Student* pivot] or [double pivotVal]) and the two tests of
    the inner loops; the section is that common text. *)
Section QuickSort.
Context {P : Type}.
Variable pivotOf : Student -> P.
(** [below x pv]: the test of [while (... < ...) i++];
    [above x pv]: the test of [while (... > ...) j--]. *)
Variables below above : Student -> P -> bool.

Fixpoint scanUp (fuel : nat) (arr : list Student) (pv : P) (i : Z)
  : outcome Z :=
  match fuel with
  | O => Timeout
  | S f =>
      x ← readAt arr i;
      if below x pv then scanUp f arr pv (i + 1) else Done i
  end.

Fixpoint scanDown (fuel : nat) (arr : list Student) (pv : P) (j : Z)
  : outcome Z :=
  match fuel with
  | O => Timeout
  | S f =>
      x ← readAt arr j;
      if above x pv then scanDown f arr pv (j - 1) else Done j
  end.

(** [while (i <= j) { ... }] *)
Fixpoint partitionLoop (fuel : nat) (arr : list Student) (pv : P) (i j : Z)
  : outcome (list Student * Z * Z) :=
  match fuel with
  | O => Timeout
  | S f =>
      if i <=? j then
        i1 ← scanUp f arr pv i;
        j1 ← scanDown f arr pv j;
        if i1 <=? j1 then
          arr1 ← quickSwap arr i1 j1;
          partitionLoop f arr1 pv (i1 + 1) (j1 - 1)
        else partitionLoop f arr pv i1 j1
      else Done (arr, i, j)
  end.

Fixpoint quickSort (fuel : nat) (arr : list Student) (lo hi : Z)
  : outcome (list Student) :=
  match fuel with
  | O => Timeout
  | S f =>
      if hi <=? lo then Done arr
      else
        p ← readAt arr ((lo + hi) ÷ 2);
        '(arr1, i, j) ← partitionLoop f arr (pivotOf p) lo hi;
        arr2 ← (if lo <? j then quickSort f arr1 lo j else Done arr1);
        if i <? hi then quickSort f arr2 i hi else Done arr2
  end.
End QuickSort.

(** quicksort by roll *)
Definition quickSortRoll (fuel : nat) (arr : list Student) (lo hi : Z)
  : outcome (list Student) :=
  quickSort (fun pivot => pivot)
    (fun x pivot => strcmp (getRoll x) (getRoll pivot) <? 0)
    (fun x pivot => 0 <? strcmp (getRoll x) (getRoll pivot))
    fuel arr lo hi.

(** quicksort by marks component *)
Definition quickSortMarks (fuel : nat) (arr : list Student) (lo hi : Z)
    (mc : MarkComponent) : outcome (list Student) :=
  quickSort (fun p => getComponent p mc)
    (fun x pivotVal => dlt (getComponent x mc) pivotVal)
    (fun x pivotVal => dlt pivotVal (getComponent x mc))
    fuel arr lo hi.

(** Fuel that covers a range of [n] elements. *)
Definition sortFuel (n : nat) : nat := 2 * n + 2.

(** The calls of [demo]: [quickSortRoll(arr, 0, n-1)] and
    [quickSortMarks(arr, 0, n-1, mc)] on a snapshot of [n] records. *)
Definition sortByIdentity (S : list Student) : outcome (list Student) :=
  quickSortRoll (sortFuel (length S)) S 0 (Z.of_nat (length S) - 1).

Definition sortByField (S : list Student) (mc : MarkComponent)
  : outcome (list Student) :=
  quickSortMarks (sortFuel (length S)) S 0 (Z.of_nat (length S) - 1) mc.

(** ** Trie for name sorting *)

Definition TRIE_ALPHABET : nat := 27.

Definition chIndex (c : ascii) : nat :=
  if Ascii.eqb c " " then 26%nat
  else
    let c' := tolower c in
    if (97 <=? c') && (c' <=? 122) then Z.to_nat (c' - 97) else 26%nat.

(** A node: the table of 27 nullable children and the students that end
    here, [students[0 .. studCount)]; the capacity of the growable buffer
    is not part of the model. *)
#[local] Unset Elimination Schemes.
Inductive TrieNode : Type :=
  mkTrieNode { children : list (option TrieNode); students : list Student }.
#[local] Set Elimination Schemes.

Definition newTrieNode : TrieNode :=
  mkTrieNode (replicate TRIE_ALPHABET None) [].

Definition addStudent (s : Student) (node : TrieNode) : TrieNode :=
  mkTrieNode (children node) (students node ++ [s]).

(** The loop of [NameTrie::insert] from the current node over the rest of
    the name. *)
Fixpoint insertFrom (nm : string) (s : Student) (cur : TrieNode) : TrieNode :=
  match nm with
  | EmptyString => addStudent s cur
  | String c rest =>
      let idx := chIndex c in
      let child :=
        match children cur !! idx with
        | Some (Some ch) => ch
        | _ => newTrieNode
        end in
      mkTrieNode (<[idx := Some (insertFrom rest s child)]> (children cur))
                 (students cur)
  end.

Definition insert (s : Student) (root : TrieNode) : TrieNode :=
  insertFrom (getName s) s root.

(** The output array and the running index [idx]. *)
Definition outbuf : Type := (list (option Student) * Z)%type.

Fixpoint appendStudents (ss : list Student) (st : outbuf) : outcome outbuf :=
  match ss with
  | [] => Done st
  | s :: ss' =>
      out ← writeAt (fst st) (snd st) (Some s);
      appendStudents ss' (out, snd st + 1)
  end.

Fixpoint traverseCollect (node : TrieNode) (st : outbuf) {struct node}
  : outcome outbuf :=
  match node with
  | mkTrieNode cs ss =>
      st1 ← appendStudents ss st;
      (fix each (cs : list (option TrieNode)) (st : outbuf) {struct cs}
         : outcome outbuf :=
         match cs with
         | [] => Done st
         | None :: cs' => each cs' st
         | Some ch :: cs' => st' ← traverseCollect ch st; each cs' st'
         end) cs st1
  end.

Definition collectSorted (root : TrieNode) (out : list (option Student))
  : outcome (list (option Student)) :=
  st ← traverseCollect root (out, 0);
  Done (fst st).

(** [sortByNameUsingTrie]: [None] is the null pointer returned for an empty
    course; the entries of the array are nullable pointers. *)
Definition sortByNameUsingTrie (c : Course)
  : outcome (option (list (option Student))) :=
  let n := size c in
  if n =? 0 then Done None
  else
    let arr := default [] (exportArray c) in
    let trie := foldl (fun t s => insert s t) newTrieNode arr in
    let out := replicate (Z.to_nat n) None in
    out' ← collectSorted trie out;
    Done (Some out').

(** ** Vocabulary of the statements *)

(** Every character of [s] passes the test [p]. *)
Fixpoint allChars (p : ascii -> bool) (s : string) : bool :=
  match s with
  | EmptyString => true
  | String c s' => p c && allChars p s'
  end.

Definition startsWord (s : string) : bool :=
  match s with
  | EmptyString => false
  | String c _ => negb (isspace c)
  end.

(** The whitespace-separated tokens of a string: its maximal runs of
    characters that are not whitespace, left to right. *)
Fixpoint tokens (s : string) : list string :=
  match s with
  | EmptyString => []
  | String c s' =>
      if isspace c then tokens s'
      else if startsWord s' then
        match tokens s' with
        | t :: ts => String c t :: ts
        | [] => [String c EmptyString]
        end
      else String c EmptyString :: tokens s'
  end.

(** A letter or a hyphen: what the second token may contain. *)
Definition isSecondWordChar (c : ascii) : bool :=
  isalpha c || Ascii.eqb c "-".

(** Reading an array cell, as a partial function of the index. *)
Definition getZ {A} (arr : list A) (i : Z) : option A :=
  if i <? 0 then None else arr !! Z.to_nat i.

(** The cells [lo .. hi] of [arr] are in order. *)
Definition sortedRange (le : Student -> Student -> Prop)
    (arr : list Student) (lo hi : Z) : Prop :=
  forall a b x y, lo <= a -> a <= b -> b <= hi ->
    getZ arr a = Some x -> getZ arr b = Some y -> le x y.

(** Every record in the cells [lo .. hi] satisfies [Q]. *)
Definition rangeAll (Q : Student -> Prop) (arr : list Student) (lo hi : Z)
  : Prop :=
  forall m x, lo <= m <= hi -> getZ arr m = Some x -> Q x.

Definition sameOutside (arr' arr : list Student) (lo hi : Z) : Prop :=
  forall m, m < lo \/ hi < m -> getZ arr' m = getZ arr m.

(** [arr'] is [arr] with the cells [lo .. hi] rearranged among
    themselves. *)
Definition rearranged (arr' arr : list Student) (lo hi : Z) : Prop :=
  length arr' = length arr /\
  arr' ≡ₚ arr /\
  sameOutside arr' arr lo hi /\
  forall Q, rangeAll Q arr lo hi -> rangeAll Q arr' lo hi.

(** The state of the partition loop at the test [i <= j]. *)
Record partInv (le : Student -> Student -> Prop) (p : Student)
    (lo hi : Z) (arr : list Student) (i j : Z) : Prop := mkPartInv {
  pi_bounds : 0 <= lo /\ hi < Z.of_nat (length arr) /\
              lo <= i <= hi + 1 /\ lo - 1 <= j <= hi;
  pi_left : forall m x, lo <= m < i -> getZ arr m = Some x -> le x p;
  pi_right : forall m x, j < m <= hi -> getZ arr m = Some x -> le p x;
  pi_stop_up : i <= j ->
    exists k y, i <= k <= hi /\ getZ arr k = Some y /\ le p y;
  pi_stop_down : i <= j ->
    exists k y, lo <= k <= j /\ getZ arr k = Some y /\ le y p;
  pi_progress : (lo < i /\ j < hi) \/
    exists k y, i <= k <= j /\ getZ arr k = Some y /\ le p y /\ le y p
}.

(** The order of [strcmp] on strings and on rolls, and the order of a mark
    component. *)
Definition strLe (a b : string) : Prop := strcmp a b <= 0.

Definition rollLe (a b : Student) : Prop :=
  strcmp (getRoll a) (getRoll b) <= 0.

(** [x <= y] between doubles; it holds of no NaN. *)
Definition dle (x y : double) : Prop :=
  match x, y with
  | DNaN, _ | _, DNaN => False
  | DNegInf, _ => True
  | _, DPosInf => True
  | DFinite a, DFinite b => (a <= b)%Q
  | _, _ => False
  end.

Definition markLe (mc : MarkComponent) (a b : Student) : Prop :=
  dle (getComponent a mc) (getComponent b mc).

(** The mark of a record in a component is a number. *)
Definition numeric (mc : MarkComponent) (s : Student) : Prop :=
  getComponent s mc <> DNaN.

(** A total comparison that agrees with [dlt] on numbers and puts NaN
    below them; the order it induces on records. *)
Definition tlt (x y : double) : bool :=
  match x, y with
  | _, DNaN => false
  | DNaN, _ => true
  | _, _ => dlt x y
  end.

Definition markLeT (mc : MarkComponent) (a b : Student) : Prop :=
  tlt (getComponent b mc) (getComponent a mc) = false.

(** The state of the partition loop at the test [i <= j], as far as the
    two tests of the inner loops tell it: each scan has a cell ahead that
    stops it. *)
Record partStops {P : Type} (below above : Student -> P -> bool) (pv : P)
    (lo hi : Z) (arr : list Student) (i j : Z) : Prop := mkPartStops {
  ps_bounds : 0 <= lo /\ hi < Z.of_nat (length arr) /\
              lo <= i <= hi + 1 /\ lo - 1 <= j <= hi;
  ps_stop_up : i <= j ->
    exists k y, i <= k <= hi /\ getZ arr k = Some y /\ below y pv = false;
  ps_stop_down : i <= j ->
    exists k y, lo <= k <= j /\ getZ arr k = Some y /\ above y pv = false;
  ps_progress : (lo < i /\ j < hi) \/
    exists k y, i <= k <= j /\ getZ arr k = Some y /\
                below y pv = false /\ above y pv = false
}.

(** The normalized name: the path of a name through the trie, one symbol of
    the 27-symbol alphabet per character. *)
Fixpoint nameKey (nm : string) : list nat :=
  match nm with
  | EmptyString => []
  | String c rest => chIndex c :: nameKey rest
  end.

Definition keyOf (s : Student) : list nat := nameKey (getName s).

(** Lexicographic comparison of paths by symbol index: a proper prefix
    comes first, then the first differing symbol decides. *)
Fixpoint keyLeb (k1 k2 : list nat) : bool :=
  match k1, k2 with
  | [], _ => true
  | _ :: _, [] => false
  | a :: k1', b :: k2' =>
      (a <? b)%nat || ((a =? b)%nat && keyLeb k1' k2')
  end.

Definition keyLe (k1 k2 : list nat) : Prop := keyLeb k1 k2 = true.
Definition keyLt (k1 k2 : list nat) : Prop := keyLeb k2 k1 = false.

(** The records of a trie with the path that leads to each, in the order
    of the pre-order traversal. *)
Abbreviation entry := (list nat * Student)%type.

(** Entries compared by their paths, and a record with its own path. *)
Definition entryLe (e1 e2 : entry) : Prop := keyLe (fst e1) (fst e2).
Definition tagged (s : Student) : entry := (keyOf s, s).

Definition underSymbol (i : nat) (e : entry) : entry := (i :: fst e, snd e).

Fixpoint flat (node : TrieNode) : list entry :=
  match node with
  | mkTrieNode cs ss =>
      map (pair []) ss ++
      (fix each (i : nat) (cs : list (option TrieNode)) {struct cs}
         : list entry :=
         match cs with
         | [] => []
         | None :: cs' => each (S i) cs'
         | Some ch :: cs' => map (underSymbol i) (flat ch) ++ each (S i) cs'
         end) 0%nat cs
  end.

Fixpoint flatChildren (i : nat) (cs : list (option TrieNode)) : list entry :=
  match cs with
  | [] => []
  | None :: cs' => flatChildren (S i) cs'
  | Some ch :: cs' => map (underSymbol i) (flat ch) ++ flatChildren (S i) cs'
  end.

(** The loop over the children in [traverseCollect], on its own. *)
Fixpoint traverseChildren (cs : list (option TrieNode)) (st : outbuf)
  : outcome outbuf :=
  match cs with
  | [] => Done st
  | None :: cs' => traverseChildren cs' st
  | Some ch :: cs' => st' ← traverseCollect ch st; traverseChildren cs' st'
  end.

(** Every node of the trie has its table of 27 children. *)
Inductive wfTrie : TrieNode -> Prop :=
| wfTrie_node cs ss :
    length cs = TRIE_ALPHABET ->
    (forall i ch, cs !! i = Some (Some ch) -> wfTrie ch) ->
    wfTrie (mkTrieNode cs ss).

(** The trie that [sortByNameUsingTrie] builds from the exported array. *)
Definition buildTrie (arr : list Student) : TrieNode :=
  foldl (fun t s => insert s t) newTrieNode arr.

(** An array of records as [sortByNameUsingTrie] returns it: the null
    pointer when there is none, else the array of their addresses. *)
Definition arrayOf (recs : list Student) : option (list (option Student)) :=
  match recs with
  | [] => None
  | _ => Some (Some <$> recs)
  end.

(** [a] stands before [b] in [l]. *)
Definition before (a b : Student) (l : list Student) : Prop :=
  [a; b] `sublist_of` l.

(** The output array after the records [l] were written from cell [n]
    on. *)
Definition fill (out : list (option Student)) (n : nat) (l : list Student)
  : list (option Student) :=
  take n out ++ (Some <$> l) ++ drop (n + length l) out.

(** The records in the order of the pre-order traversal of the trie built
    from the course. *)
Definition nameOrder (c : Course) : list Student :=
  snd <$> flat (buildTrie c).

(** ** Calls on a [Student] object *)

(** One call of a public setter; a caller that catches the exception goes
    on with the object as the call left it. *)
Inductive StudentCall : Type :=
| CallSetName (nm : option string)
| CallSetRoll (r : option string)
| CallSetBranch (b : Branch)
| CallSetLevel (lv : Z)
| CallSetMarks (m : Marks).

Definition doCall (call : StudentCall) (s : Student) : Student :=
  match call with
  | CallSetName nm => fst (setName nm s)
  | CallSetRoll r => fst (setRoll r s)
  | CallSetBranch b => setBranch b s
  | CallSetLevel lv => setLevel lv s
  | CallSetMarks m => setMarks m s
  end.

Definition doCalls (calls : list StudentCall) (s : Student) : Student :=
  foldl (fun s call => doCall call s) s calls.

(** What the buffers [name] and [roll] of an object may hold: the empty
    string of the constructor or a string that passed its validator, and in
    both cases a string that fits the buffer with its terminator. *)
Definition storedOk (s : Student) : Prop :=
  (name s = EmptyString \/ validateName (Some (name s)) = Ok tt) /\
  strlen (name s) < NAME_MAX /\
  (roll s = EmptyString \/ validateRoll (Some (roll s)) = Ok tt) /\
  strlen (roll s) < ROLL_MAX.

(** A call whose string argument, if it has one, is shorter than 2^31
    bytes, so that its length is also its [int] length. *)
Definition callFits (call : StudentCall) : Prop :=
  match call with
  | CallSetName (Some nm) => strlen nm < 2147483648
  | CallSetRoll (Some r) => strlen r < 2147483648
  | _ => True
  end.

(** ** The course as a chain of pointers

    The nodes of a [Course] hold [Student*]; [findByRoll] returns one of
    these pointers and [operator()] a reference to the object behind it.
    For code that writes through such a reference the objects live in a
    heap, addressed by position, and the chain is the list of the
    addresses in its nodes. *)
Abbreviation heap := (list Student).
Abbreviation ptrCourse := (list nat).

Fixpoint findByRollPtr (h : heap) (c : ptrCourse) (r : string) : option nat :=
  match c with
  | [] => None
  | p :: next =>
      match h !! p with
      | Some s =>
          if strcmp (getRoll s) r =? 0 then Some p else findByRollPtr h next r
      | None => None
      end
  end.

Definition Course_callPtr (h : heap) (c : ptrCourse) (r : string)
  : result nat :=
  match findByRollPtr h c r with
  | Some p => Ok p
  | None => Throw RollNotFoundException
  end.

(** [ref.setMarks(m)] on the reference to the object at [p]. *)
Definition setMarksAt (p : nat) (m : Marks) (h : heap) : heap :=
  alter (setMarks m) p h.

(** The records of the chain, when every node points to an object. *)
Definition deref (h : heap) (c : ptrCourse) : option Course :=
  mapM (fun p => h !! p) c.

(** * Properties *)

(** ** Validators *)

Lemma rollLoop_allChars s :
  rollLoop s = if allChars isValidRollChar s then Ok tt
               else Throw InvalidRollException.
Proof.
  induction s as [|c s IH]; simpl; [done|].
  destruct (isValidRollChar c); simpl; [apply IH|done].
Qed.

Lemma strlen_zero s : (strlen s =? 0) = true <-> s = EmptyString.
Proof.
  unfold strlen. destruct s; simpl; split; intros H; done.
Qed.

Lemma toInt_small z : 0 <= z < 2147483648 -> toInt z = z.
Proof. intros Hz. unfold toInt. rewrite Z.mod_small by lia. lia. Qed.

Lemma toInt_le z : 0 <= z -> toInt z <= z.
Proof.
  intros Hz. unfold toInt.
  pose proof (Z.mod_le (z + 2147483648) 4294967296 ltac:(lia) ltac:(lia)).
  lia.
Qed.

Lemma firstBytes_all n s : (String.length s <= n)%nat -> firstBytes n s = s.
Proof.
  revert n. induction s as [|c s IH]; intros [|n] Hn; simpl in *;
    try done; try lia.
  f_equal. apply IH. lia.
Qed.

(** A string of fewer than 2^31 bytes is visited whole. *)
Lemma visited_small s :
  strlen s < 2147483648 -> visited (toInt (strlen s)) s = s.
Proof.
  intros Hs. unfold visited. rewrite toInt_small by (unfold strlen in *; lia).
  apply firstBytes_all. unfold strlen. lia.
Qed.

Lemma validateRoll_eq s :
  strlen s < 2147483648 ->
  validateRoll (Some s) =
    if (strlen s =? 0) || negb (allChars isValidRollChar s)
    then Throw InvalidRollException else Ok tt.
Proof.
  intros Hs. unfold validateRoll. rewrite visited_small by done.
  destruct (strlen s =? 0); simpl; [done|].
  rewrite rollLoop_allChars. by destruct (allChars isValidRollChar s).
Qed.

(** From 2^31 bytes on the [int] length is no longer the length: a string
    of exactly 2^31 bytes has [int] length -2^31, the loops run over no
    byte at all, and [strcpy] is reached with a string that does not
    fit. *)
Lemma validate_at_wrap s :
  strlen s = 2147483648 ->
  validateRoll (Some s) = Ok tt /\
  validateName (Some s) = Throw NoSecondNameException /\
  safeStrCpy EmptyString s ROLL_MAX = (s, Overrun).
Proof.
  intros Hs. unfold validateRoll, validateName, safeStrCpy, strcpy.
  rewrite Hs. by vm_compute.
Qed.

(** C6, as the code has it: on a string of fewer than 2^31 bytes, whose
    length the [int] loop bound holds, [validateRoll] throws the one
    exception class [InvalidRollException] exactly when the string is empty
    or holds a character that is neither alphanumeric nor '/' nor '-', and
    returns otherwise; "20CS1001" passes and "20CS#1003" is rejected. *)
Theorem validateRoll_spec (s : string) :
  strlen s < 2147483648 ->
  (validateRoll (Some s) = Throw InvalidRollException <->
     s = EmptyString \/ allChars isValidRollChar s = false) /\
  (validateRoll (Some s) = Ok tt <->
     s <> EmptyString /\ allChars isValidRollChar s = true) /\
  (forall c, isValidRollChar c = isalnum c || Ascii.eqb c "/" || Ascii.eqb c "-") /\
  validateRoll (Some "20CS1001") = Ok tt /\
  validateRoll (Some "20CS#1003") = Throw InvalidRollException.
Proof.
  intros Hs. rewrite validateRoll_eq by done.
  pose proof (strlen_zero s) as Hz.
  split_and!; try done.
  - destruct (strlen s =? 0) eqn:E; simpl.
    + split; [left; by apply Hz|done].
    + destruct (allChars isValidRollChar s); simpl; split; try done; auto.
      intros [->|?]; [|done]. destruct Hz as [_ Hz]. by discriminate Hz.
  - destruct (strlen s =? 0) eqn:E; simpl.
    + split; [done|]. intros [Hne _]. destruct Hne. by apply Hz.
    + destruct (allChars isValidRollChar s); simpl; split; try done.
      * intros _. split; [|done]. intros ->. destruct Hz as [_ Hz].
        by discriminate Hz.
      * by intros [_ ?].
Qed.

Lemma validateRoll_spec_witness :
  (validateRoll (Some "20CS#1003") = Throw InvalidRollException <->
     "20CS#1003" = EmptyString \/
     allChars isValidRollChar "20CS#1003" = false) /\
  (validateRoll (Some "20CS#1003") = Ok tt <->
     "20CS#1003" <> EmptyString /\
     allChars isValidRollChar "20CS#1003" = true) /\
  (forall c, isValidRollChar c = isalnum c || Ascii.eqb c "/" || Ascii.eqb c "-") /\
  validateRoll (Some "20CS1001") = Ok tt /\
  validateRoll (Some "20CS#1003") = Throw InvalidRollException.
Proof.
  apply (validateRoll_spec "20CS#1003"). vm_compute. reflexivity.
Defined.

(** C6, as stated, needs an error kind for the empty string that differs
    from the kind for a bad character; the code raises the same class for
    both. *)
Lemma validateRoll_empty_kind_not_distinct :
  ~ exists eEmpty eChar : StudentException,
      eEmpty <> eChar /\
      validateRoll (Some "") = Throw eEmpty /\
      validateRoll (Some "20CS#1003") = Throw eChar.
Proof.
  intros (e1 & e2 & Hne & H1 & H2).
  vm_compute in H1, H2. congruence.
Qed.

Lemma tokens_startsWord s : startsWord s = true -> tokens s <> [].
Proof.
  destruct s as [|c s]; simpl; [done|].
  intros Hc. apply negb_true_iff in Hc. rewrite Hc.
  destruct (startsWord s); [by destruct (tokens s)|done].
Qed.

Lemma length_tokens_word c s :
  isspace c = false ->
  length (tokens (String c s)) =
    if startsWord s then length (tokens s) else S (length (tokens s)).
Proof.
  intros Hc. simpl. rewrite Hc.
  destruct (startsWord s) eqn:E; [|done].
  apply tokens_startsWord in E. by destruct (tokens s).
Qed.

Lemma nameLoop1_invalid s st :
  allChars isValidNameChar s = false ->
  nameLoop1 s st = Throw InvalidSecondNameException.
Proof.
  revert st. induction s as [|c s IH]; intros st; simpl; [done|].
  destruct (isValidNameChar c); simpl; [|done].
  intros H. rewrite !IH by done.
  by repeat case_match.
Qed.

Lemma nameLoop1_words s st :
  allChars isValidNameChar s = true ->
  exists st',
    nameLoop1 s st = Ok st' /\
    words st' = words st + Z.of_nat (length (tokens s))
                - (if inword st && startsWord s then 1 else 0).
Proof.
  revert st. induction s as [|c s IH]; intros st Hall.
  - exists st. simpl. rewrite andb_false_r. split; [done|lia].
  - apply andb_true_iff in Hall as [Hc Hs].
    cbn [nameLoop1]. rewrite Hc. cbn [negb].
    destruct (isspace c) eqn:Esp.
    + cbn [negb andb].
      destruct (IH (mkWordScan (words st) false) Hs) as (st' & -> & Hw).
      exists st'. split; [done|]. rewrite Hw.
      cbn [tokens startsWord words inword andb]. rewrite Esp.
      cbn [negb]. rewrite andb_false_r. lia.
    + cbn [negb andb]. rewrite (length_tokens_word c s Esp).
      cbn [startsWord]. rewrite Esp. cbn [negb]. rewrite andb_true_r.
      destruct (inword st) eqn:Einw; cbn [negb].
      * destruct (IH st Hs) as (st' & -> & Hw).
        exists st'. split; [done|]. rewrite Hw, Einw.
        cbn [andb]. destruct (startsWord s); lia.
      * destruct (IH (mkWordScan (words st + 1) true) Hs) as (st' & -> & Hw).
        exists st'. split; [done|]. rewrite Hw.
        cbn [words inword andb]. destruct (startsWord s); lia.
Qed.

Lemma validNameChar_word c :
  isValidNameChar c = true -> isspace c = false -> isSecondWordChar c = true.
Proof.
  unfold isValidNameChar, isSecondWordChar.
  destruct (isalpha c); [done|]. simpl.
  destruct (Ascii.eqb_spec c " ") as [->|_]; [done|]. simpl. auto.
Qed.

Lemma checkSecondWord_valid s :
  allChars isValidNameChar s = true -> checkSecondWord s = Ok tt.
Proof.
  induction s as [|c s IH]; simpl; [done|].
  intros [Hc Hs]%andb_true_iff.
  destruct (isspace c) eqn:Esp; [done|].
  pose proof (validNameChar_word c Hc Esp) as Hw.
  unfold isSecondWordChar in Hw.
  destruct (isalpha c); simpl in *; [by apply IH|].
  rewrite Hw. simpl. by apply IH.
Qed.

Lemma nameLoop2_valid s wc inw :
  allChars isValidNameChar s = true -> nameLoop2 s wc inw = Ok tt.
Proof.
  revert wc inw. induction s as [|c s IH]; intros wc inw Hall; [done|].
  pose proof (checkSecondWord_valid _ Hall) as Hck.
  apply andb_true_iff in Hall as [Hc Hs].
  cbn [nameLoop2].
  destruct (negb (isspace c) && negb inw).
  - destruct (wc + 1 =? 2); [done|by apply IH].
  - destruct (isspace c); by apply IH.
Qed.

Lemma validateName_eq s :
  strlen s < 2147483648 ->
  validateName (Some s) =
    if strlen s =? 0 then Throw NoSecondNameException
    else if negb (allChars isValidNameChar s)
         then Throw InvalidSecondNameException
    else if (length (tokens s) <? 2)%nat then Throw NoSecondNameException
    else Ok tt.
Proof.
  intros Hs. unfold validateName. cbv zeta. rewrite visited_small by done.
  destruct (strlen s =? 0); [done|].
  destruct (allChars isValidNameChar s) eqn:Hall; cbn [negb].
  - destruct (nameLoop1_words s (mkWordScan 0 false) Hall) as (st & -> & Hw).
    cbn [mbind result_bind]. cbn [words inword andb] in Hw.
    rewrite nameLoop2_valid by done.
    destruct (Nat.ltb_spec (length (tokens s)) 2);
      destruct (Z.ltb_spec (words st) 2); try done; lia.
  - by rewrite nameLoop1_invalid.
Qed.

Lemma tokens_word_chars s :
  allChars isValidNameChar s = true ->
  Forall (fun t => allChars isSecondWordChar t = true) (tokens s).
Proof.
  induction s as [|c s IH]; simpl; [constructor|].
  intros [Hc Hs]%andb_true_iff. specialize (IH Hs).
  destruct (isspace c) eqn:Esp; [done|].
  pose proof (validNameChar_word c Hc Esp) as Hw.
  destruct (startsWord s).
  - destruct (tokens s) as [|t ts].
    + constructor; [|done]. simpl. by rewrite Hw.
    + inversion IH; subst. constructor; [|done]. simpl. by rewrite Hw.
  - constructor; [|done]. simpl. by rewrite Hw.
Qed.

(** C7, as the code has it, on a string of fewer than 2^31 bytes, whose
    length [int n] holds.  [NoSecondNameException] (the spec's EmptyName
    and MissingSecondToken) is thrown exactly when the string is empty, or
    all its characters are letters, spaces or hyphens and it has fewer than
    two whitespace-separated tokens.  [InvalidSecondNameException] (the
    spec's InvalidNameChar and InvalidSecondToken) is thrown exactly when
    the string is not empty and some character is not a letter, space or
    hyphen; this includes every string whose second token holds a character
    other than a letter or hyphen.  Otherwise the call returns.
    "SingleName" is rejected for its missing second token; "Maya Rao"
    passes. *)
Theorem validateName_spec (s : string) :
  strlen s < 2147483648 ->
  (validateName (Some s) = Throw NoSecondNameException <->
     s = EmptyString \/
     (allChars isValidNameChar s = true /\ (length (tokens s) < 2)%nat)) /\
  (validateName (Some s) = Throw InvalidSecondNameException <->
     s <> EmptyString /\ allChars isValidNameChar s = false) /\
  (validateName (Some s) = Ok tt <->
     s <> EmptyString /\ allChars isValidNameChar s = true /\
     (2 <= length (tokens s))%nat) /\
  (forall t, tokens s !! 1%nat = Some t ->
     allChars isSecondWordChar t = false ->
     validateName (Some s) = Throw InvalidSecondNameException) /\
  (forall c, isValidNameChar c = isalpha c || Ascii.eqb c " " || Ascii.eqb c "-") /\
  validateName (Some "SingleName") = Throw NoSecondNameException /\
  validateName (Some "Maya Rao") = Ok tt.
Proof.
  intros Hs. rewrite validateName_eq by done.
  pose proof (strlen_zero s) as Hz.
  pose proof (tokens_word_chars s) as Htok.
  split_and!; try done.
  - destruct (strlen s =? 0); [split; [left; by apply Hz|done]|].
    assert (s <> EmptyString) by (intros ->; by destruct Hz as [_ Hz]; discriminate Hz).
    destruct (allChars isValidNameChar s); cbn [negb].
    + destruct (Nat.ltb_spec (length (tokens s)) 2); split; try done; auto.
      intros [?|[_ ?]]; [done|lia].
    + split; [done|]. by intros [?|[? _]].
  - destruct (strlen s =? 0).
    { split; [done|]. intros [Hne _]. destruct Hne. by apply Hz. }
    assert (s <> EmptyString) by (intros ->; by destruct Hz as [_ Hz]; discriminate Hz).
    destruct (allChars isValidNameChar s); cbn [negb].
    + destruct (Nat.ltb_spec (length (tokens s)) 2); split; try done;
        by intros [_ ?].
    + done.
  - destruct (strlen s =? 0).
    { split; [done|]. intros [Hne _]. destruct Hne. by apply Hz. }
    assert (s <> EmptyString) by (intros ->; by destruct Hz as [_ Hz]; discriminate Hz).
    destruct (allChars isValidNameChar s); cbn [negb].
    + destruct (Nat.ltb_spec (length (tokens s)) 2); split; try done.
      intros (_ & _ & ?). lia.
    + split; [done|]. by intros (_ & ? & _).
  - intros t Ht Hbad.
    destruct (strlen s =? 0) eqn:E.
    { assert (s = EmptyString) as -> by (by apply Hz). done. }
    destruct (allChars isValidNameChar s); cbn [negb]; [|done].
    specialize (Htok eq_refl).
    rewrite Forall_lookup in Htok. specialize (Htok _ _ Ht). congruence.
Qed.

Lemma validateName_spec_witness :
  (validateName (Some "Single1") = Throw NoSecondNameException <->
     "Single1" = EmptyString \/
     (allChars isValidNameChar "Single1" = true /\
      (length (tokens "Single1") < 2)%nat)) /\
  (validateName (Some "Single1") = Throw InvalidSecondNameException <->
     "Single1" <> EmptyString /\ allChars isValidNameChar "Single1" = false) /\
  (validateName (Some "Single1") = Ok tt <->
     "Single1" <> EmptyString /\ allChars isValidNameChar "Single1" = true /\
     (2 <= length (tokens "Single1"))%nat) /\
  (forall t, tokens "Single1" !! 1%nat = Some t ->
     allChars isSecondWordChar t = false ->
     validateName (Some "Single1") = Throw InvalidSecondNameException) /\
  (forall c, isValidNameChar c = isalpha c || Ascii.eqb c " " || Ascii.eqb c "-") /\
  validateName (Some "SingleName") = Throw NoSecondNameException /\
  validateName (Some "Maya Rao") = Ok tt.
Proof.
  apply (validateName_spec "Single1"). vm_compute. reflexivity.
Defined.

(** C7, as stated, makes the missing-second-token error the outcome of
    every string with fewer than two tokens; "Single1" has one token and
    the code rejects it for its digit instead. *)
Lemma validateName_one_token_other_error :
  (length (tokens "Single1") < 2)%nat /\
  validateName (Some "Single1") <> Throw NoSecondNameException /\
  ~ (forall s : string,
       validateName (Some s) = Throw NoSecondNameException <->
       s = EmptyString \/ (length (tokens s) < 2)%nat).
Proof.
  split_and!.
  - vm_compute. lia.
  - by vm_compute.
  - intros H. specialize (H "Single1"). destruct H as [_ H].
    assert (validateName (Some "Single1") = Throw NoSecondNameException) as Hx.
    { apply H. right. vm_compute. lia. }
    by vm_compute in Hx.
Qed.

(** ** Setters *)

(** C8: when [setName] or [setRoll] throws, the object is left exactly as
    it was: class, name, roll, branch, marks and level. *)
Theorem setters_no_partial_update (r : Student) (s : option string)
    (e : StudentException) :
  (snd (setName s r) = Throw e -> fst (setName s r) = r) /\
  (snd (setRoll s r) = Throw e -> fst (setRoll s r) = r).
Proof.
  unfold setName, setRoll, safeStrCpy, strcpy. split.
  - destruct (validateName s); [|done..].
    destruct (NAME_MAX <=? toInt (strlen (default EmptyString s))); simpl.
    + intros _. by destruct r.
    + by destruct (strlen (default EmptyString s) <? NAME_MAX).
  - destruct (validateRoll s); [|done..].
    destruct (ROLL_MAX <=? toInt (strlen (default EmptyString s))); simpl.
    + intros _. by destruct r.
    + by destruct (strlen (default EmptyString s) <? ROLL_MAX).
Qed.

Lemma setters_no_partial_update_witness :
  fst (setName (Some "SingleName") (newStudent BTechStudent))
    = newStudent BTechStudent /\
  fst (setRoll (Some "20CS#1003") (newStudent BTechStudent))
    = newStudent BTechStudent.
Proof.
  split.
  - apply (proj1 (setters_no_partial_update (newStudent BTechStudent)
                    (Some "SingleName") NoSecondNameException)).
    reflexivity.
  - apply (proj2 (setters_no_partial_update (newStudent BTechStudent)
                    (Some "20CS#1003") InvalidRollException)).
    reflexivity.
Defined.

(** ** [strcmp] as an order on strings *)

Lemma uchar_inj x y : uchar x = uchar y -> x = y.
Proof.
  unfold uchar. intros H. apply N2Z.inj in H.
  rewrite <- (ascii_N_embedding x), <- (ascii_N_embedding y). by rewrite H.
Qed.

Lemma strcmp_refl a : strcmp a a = 0.
Proof.
  induction a as [|x a IH]; simpl; [done|].
  rewrite Z.ltb_irrefl. done.
Qed.

Lemma strcmp_eq a b : strcmp a b = 0 <-> a = b.
Proof.
  split; [|intros ->; apply strcmp_refl].
  revert b. induction a as [|x a IH]; intros [|y b]; simpl; try done.
  destruct (Z.ltb_spec (uchar x) (uchar y)); [done|].
  destruct (Z.ltb_spec (uchar y) (uchar x)); [done|].
  intros Heq. f_equal; [apply uchar_inj; lia|by apply IH].
Qed.

Lemma strcmp_antisym a b : strcmp b a = - strcmp a b.
Proof.
  revert b. induction a as [|x a IH]; intros [|y b]; simpl; try done.
  destruct (Z.ltb_spec (uchar x) (uchar y));
    destruct (Z.ltb_spec (uchar y) (uchar x)); try lia.
  apply IH.
Qed.

Lemma strcmp_range a b : -1 <= strcmp a b <= 1.
Proof.
  revert b. induction a as [|x a IH]; intros [|y b]; simpl; try lia.
  repeat case_match; try lia. apply IH.
Qed.

Lemma strcmp_le_trans a b c :
  strcmp a b <= 0 -> strcmp b c <= 0 -> strcmp a c <= 0.
Proof.
  revert b c. induction a as [|x a IH]; intros [|y b] [|z c]; simpl;
    try lia.
  destruct (Z.ltb_spec (uchar x) (uchar y));
    destruct (Z.ltb_spec (uchar y) (uchar x));
    destruct (Z.ltb_spec (uchar y) (uchar z));
    destruct (Z.ltb_spec (uchar z) (uchar y));
    destruct (Z.ltb_spec (uchar x) (uchar z));
    destruct (Z.ltb_spec (uchar z) (uchar x)); try lia.
  apply IH.
Qed.

(** ** Course *)

Lemma addAll_reverse adds : addAll adds = reverse adds.
Proof.
  unfold addAll, newCourse, Course_add.
  rewrite <- (app_nil_r (reverse adds)). generalize (@nil Student).
  induction adds as [|s adds IH]; intros acc; simpl; [done|].
  rewrite IH, reverse_cons. by rewrite <- app_assoc.
Qed.

Lemma findByRoll_app_first (l1 l2 : list Student) s key :
  (forall x, x ∈ l1 -> getRoll x <> key) ->
  getRoll s = key ->
  findByRoll (l1 ++ s :: l2) key = Some s.
Proof.
  intros Hno Hs. induction l1 as [|x l1 IH]; simpl.
  - subst key. by rewrite strcmp_refl.
  - destruct (Z.eqb_spec (strcmp (getRoll x) key) 0) as [E|_].
    + apply strcmp_eq in E. destruct (Hno x); [left|done].
    + apply IH. intros y Hy. apply Hno. by right.
Qed.

(** C9: in a course built by a sequence of [+=], the record found for a
    key is the matching record that was added last, however many records
    added earlier carry the same roll; [operator()] returns that record. *)
Theorem findByRoll_most_recent (pre post : list Student) (s : Student)
    (key : string) :
  getRoll s = key ->
  (forall x, x ∈ post -> getRoll x <> key) ->
  findByRoll (addAll (pre ++ s :: post)) key = Some s /\
  Course_call (addAll (pre ++ s :: post)) key = Ok s.
Proof.
  intros Hs Hpost.
  assert (findByRoll (addAll (pre ++ s :: post)) key = Some s) as H.
  { rewrite addAll_reverse, reverse_app, reverse_cons, <- app_assoc. simpl.
    apply findByRoll_app_first; [|done].
    intros x Hx. apply Hpost. by apply elem_of_reverse. }
  split; [done|]. unfold Course_call. by rewrite H.
Qed.

Lemma findByRoll_most_recent_witness :
  let first := mkStudent BTechStudent "Amit Kumar" "20CS1001" BR_CSE Marks0 0 in
  let second := mkStudent MTechStudent "Sunita Sharma" "20CS1001" BR_ECE Marks0 1 in
  findByRoll (addAll ([first] ++ second :: [])) "20CS1001" = Some second /\
  Course_call (addAll ([first] ++ second :: [])) "20CS1001" = Ok second.
Proof.
  intros first second.
  apply (findByRoll_most_recent [first] [] second "20CS1001").
  - reflexivity.
  - intros x Hx. by apply elem_of_nil in Hx.
Defined.

(** ** Array cells *)

Lemma getZ_Some_range {A} (arr : list A) m x :
  getZ arr m = Some x -> 0 <= m < Z.of_nat (length arr).
Proof.
  unfold getZ. destruct (Z.ltb_spec m 0); [done|].
  intros Hl%lookup_lt_Some. lia.
Qed.

Lemma getZ_in_range {A} (arr : list A) m :
  0 <= m < Z.of_nat (length arr) -> is_Some (getZ arr m).
Proof.
  intros Hm. unfold getZ. destruct (Z.ltb_spec m 0); [lia|].
  apply lookup_lt_is_Some. lia.
Qed.

Lemma readAt_getZ {A} (arr : list A) m x :
  getZ arr m = Some x -> readAt arr m = Done x.
Proof.
  unfold getZ, readAt. destruct (m <? 0); [done|]. by intros ->.
Qed.

Lemma getZ_insert {A} (arr : list A) i m x :
  0 <= i < Z.of_nat (length arr) -> 0 <= m ->
  getZ (<[Z.to_nat i := x]> arr) m = if Z.eqb m i then Some x else getZ arr m.
Proof.
  intros Hi Hm. unfold getZ. destruct (Z.ltb_spec m 0); [lia|].
  destruct (Z.eqb_spec m i) as [->|Hne].
  - apply list_lookup_insert_eq. lia.
  - apply list_lookup_insert_ne. lia.
Qed.

Lemma getZ_neg {A} (arr : list A) m : m < 0 -> getZ arr m = None.
Proof. unfold getZ. by destruct (Z.ltb_spec m 0); [|lia]. Qed.

Lemma quickSwap_spec arr i j x y :
  getZ arr i = Some x -> getZ arr j = Some y ->
  exists arr1,
    quickSwap arr i j = Done arr1 /\
    length arr1 = length arr /\
    arr1 ≡ₚ arr /\
    getZ arr1 i = Some y /\
    getZ arr1 j = Some x /\
    (forall m, m <> i -> m <> j -> getZ arr1 m = getZ arr m).
Proof.
  intros Hi Hj.
  pose proof (getZ_Some_range _ _ _ Hi) as Ri.
  pose proof (getZ_Some_range _ _ _ Hj) as Rj.
  exists (<[Z.to_nat j := x]> (<[Z.to_nat i := y]> arr)).
  split_and!.
  - unfold quickSwap. rewrite (readAt_getZ _ _ _ Hi), (readAt_getZ _ _ _ Hj).
    cbn [mbind outcome_bind]. unfold writeAt.
    destruct (Z.leb_spec 0 i); [|lia].
    destruct (Z.ltb_spec i (Z.of_nat (length arr))); [|lia].
    cbn [andb mbind outcome_bind]. rewrite length_insert.
    destruct (Z.leb_spec 0 j); [|lia].
    destruct (Z.ltb_spec j (Z.of_nat (length arr))); [|lia].
    done.
  - by rewrite !length_insert.
  - apply Permutation_insert_swap.
    + unfold getZ in Hi. by destruct (i <? 0).
    + unfold getZ in Hj. by destruct (j <? 0).
  - rewrite getZ_insert by (rewrite ?length_insert; lia).
    destruct (Z.eqb_spec i j) as [->|Hne]; [congruence|].
    rewrite getZ_insert by lia. by rewrite Z.eqb_refl.
  - rewrite getZ_insert by (rewrite ?length_insert; lia).
    by rewrite Z.eqb_refl.
  - intros m Hmi Hmj. destruct (Z.ltb_spec m 0).
    { by rewrite !getZ_neg. }
    rewrite getZ_insert by (rewrite ?length_insert; lia).
    destruct (Z.eqb_spec m j); [done|].
    rewrite getZ_insert by lia.
    by destruct (Z.eqb_spec m i).
Qed.

(** ** Rearrangements of a range *)

Lemma rearranged_refl arr lo hi : rearranged arr arr lo hi.
Proof. by split_and!. Qed.

Lemma rearranged_trans a3 a2 a1 lo hi :
  rearranged a2 a1 lo hi -> rearranged a3 a2 lo hi -> rearranged a3 a1 lo hi.
Proof.
  intros (L1 & P1 & O1 & Q1) (L2 & P2 & O2 & Q2). split_and!.
  - congruence.
  - by rewrite P2.
  - intros m Hm. by rewrite O2, O1.
  - intros Q HQ. by apply Q2, Q1.
Qed.

Lemma rearranged_widen a2 a1 lo hi lo' hi' :
  lo <= lo' -> hi' <= hi ->
  rearranged a2 a1 lo' hi' -> rearranged a2 a1 lo hi.
Proof.
  intros Hlo Hhi (L & Pm & O & HQ). split_and!; try done.
  - intros m Hm. apply O. lia.
  - intros Q HA m x Hm Hx.
    destruct (decide (lo' <= m <= hi')) as [Hin|Hout].
    + apply (HQ Q) with m; [|done..].
      intros m' x' Hm' Hx'. apply (HA m' x'); [lia|done].
    + rewrite O in Hx by lia. by apply (HA m x).
Qed.

(** ** The common quicksort *)

Section QuickSortCorrect.
Context {P : Type}.
Variable pivotOf : Student -> P.
Variables below above : Student -> P -> bool.
Variable le : Student -> Student -> Prop.

Hypothesis le_trans : forall x y z, le x y -> le y z -> le x z.
Hypothesis le_total : forall x y, le x y \/ le y x.
Hypothesis below_spec : forall x p, below x (pivotOf p) = false <-> le p x.
Hypothesis above_spec : forall x p, above x (pivotOf p) = false <-> le x p.

Lemma le_refl x : le x x.
Proof. by destruct (le_total x x). Qed.

Lemma below_true_le x p : below x (pivotOf p) = true -> le x p.
Proof.
  intros Hb. destruct (le_total x p) as [|Hpx]; [done|].
  apply below_spec in Hpx. congruence.
Qed.

Lemma above_true_le x p : above x (pivotOf p) = true -> le p x.
Proof.
  intros Hb. destruct (le_total p x) as [|Hpx]; [done|].
  apply above_spec in Hpx. congruence.
Qed.

(** The upward scan stops at or before any cell that fails its test. *)
Lemma scanUp_spec fuel arr pv i k y :
  0 <= i <= k -> getZ arr k = Some y -> below y pv = false ->
  k - i < Z.of_nat fuel ->
  exists i' x,
    scanUp below fuel arr pv i = Done i' /\
    i <= i' <= k /\
    getZ arr i' = Some x /\ below x pv = false /\
    (forall m z, i <= m < i' -> getZ arr m = Some z -> below z pv = true).
Proof.
  revert i. induction fuel as [|f IH]; intros i Hik Hk Hy Hf; [lia|].
  pose proof (getZ_Some_range _ _ _ Hk) as Rk.
  destruct (getZ_in_range arr i ltac:(lia)) as [x Hx].
  cbn [scanUp]. rewrite (readAt_getZ _ _ _ Hx). cbn [mbind outcome_bind].
  destruct (below x pv) eqn:Hb.
  - assert (i <> k) by congruence.
    destruct (IH (i + 1)) as (i' & x' & -> & Hr & Hx' & Hb' & Hall);
      [lia|done|done|lia|].
    exists i', x'. split_and!; try done; try lia.
    intros m z Hm Hz. destruct (decide (m = i)) as [->|].
    + congruence.
    + apply (Hall m); [lia|done].
  - exists i, x. split_and!; try done; try lia.
Qed.

Lemma scanDown_spec fuel arr pv j k y :
  0 <= k <= j -> j < Z.of_nat (length arr) ->
  getZ arr k = Some y -> above y pv = false ->
  j - k < Z.of_nat fuel ->
  exists j' x,
    scanDown above fuel arr pv j = Done j' /\
    k <= j' <= j /\
    getZ arr j' = Some x /\ above x pv = false /\
    (forall m z, j' < m <= j -> getZ arr m = Some z -> above z pv = true).
Proof.
  revert j. induction fuel as [|f IH]; intros j Hkj Hj Hk Hy Hf; [lia|].
  destruct (getZ_in_range arr j ltac:(lia)) as [x Hx].
  cbn [scanDown]. rewrite (readAt_getZ _ _ _ Hx). cbn [mbind outcome_bind].
  destruct (above x pv) eqn:Hb.
  - assert (j <> k) by congruence.
    destruct (IH (j - 1)) as (j' & x' & -> & Hr & Hx' & Hb' & Hall);
      [lia|lia|done|done|lia|].
    exists j', x'. split_and!; try done; try lia.
    intros m z Hm Hz. destruct (decide (m = j)) as [->|].
    + congruence.
    + apply (Hall m); [lia|done].
  - exists j, x. split_and!; try done; try lia.
Qed.

Lemma partitionLoop_spec p lo hi fuel arr i j :
  partInv le p lo hi arr i j ->
  (hi - lo + 2) + Z.max 0 (j - i + 1) <= Z.of_nat fuel ->
  exists arr' i' j',
    partitionLoop below above fuel arr (pivotOf p) i j = Done (arr', i', j') /\
    rearranged arr' arr lo hi /\
    j' < i' /\ lo < i' <= hi + 1 /\ lo - 1 <= j' < hi /\
    (forall m x, lo <= m < i' -> getZ arr' m = Some x -> le x p) /\
    (forall m x, j' < m <= hi -> getZ arr' m = Some x -> le p x).
Proof.
  revert arr i j. induction fuel as [|f IH]; intros arr i j Inv Hf.
  { destruct Inv as [(? & ? & ? & ?) _ _ _ _ _]. lia. }
  destruct Inv as [(Hlo & Hhi & Hi & Hj) HL HR HU HD HP].
  cbn [partitionLoop]. destruct (Z.leb_spec i j) as [Hij|Hij].
  2:{ assert (lo < i /\ j < hi) by (destruct HP as [|(k & y & ? & _)]; lia).
      exists arr, i, j.
      split_and!; try lia; try done; try apply rearranged_refl. }
  destruct (HU Hij) as (ku & yu & Hku & Hyu & Hleu).
  destruct (HD Hij) as (kd & yd & Hkd & Hyd & Hled).
  destruct (scanUp_spec f arr (pivotOf p) i ku yu)
    as (i1 & x1 & -> & Hi1 & Hx1 & Hb1 & Hup);
    [lia|done|by apply below_spec|lia|].
  destruct (scanDown_spec f arr (pivotOf p) j kd yd)
    as (j1 & y1 & -> & Hj1 & Hy1 & Ha1 & Hdown);
    [lia|lia|done|by apply above_spec|lia|].
  cbn [mbind outcome_bind].
  assert (forall m x, lo <= m < i1 -> getZ arr m = Some x -> le x p) as HL1.
  { intros m x Hm Hx. destruct (decide (m < i)).
    - apply (HL m); [lia|done].
    - apply below_true_le, (Hup m); [lia|done]. }
  assert (forall m x, j1 < m <= hi -> getZ arr m = Some x -> le p x) as HR1.
  { intros m x Hm Hx. destruct (decide (j < m)).
    - apply (HR m); [lia|done].
    - apply above_true_le, (Hdown m); [lia|done]. }
  destruct (Z.leb_spec i1 j1) as [Hsw|Hsw].
  - destruct (quickSwap_spec arr i1 j1 x1 y1 Hx1 Hy1)
      as (arr1 & -> & Hlen & Hperm & Hg1 & Hg2 & Hoth).
    cbn [mbind outcome_bind].
    destruct (IH arr1 (i1 + 1) (j1 - 1))
      as (arr' & i' & j' & -> & Hre & Hpost); [| lia |].
    { split.
      - rewrite Hlen. lia.
      - intros m x Hm Hx. destruct (decide (m = i1)) as [->|Hne].
        + rewrite Hg1 in Hx. injection Hx as <-. by apply above_spec.
        + rewrite Hoth in Hx by lia. apply (HL1 m); [lia|done].
      - intros m x Hm Hx. destruct (decide (m = j1)) as [->|Hne].
        + rewrite Hg2 in Hx. injection Hx as <-. by apply below_spec.
        + rewrite Hoth in Hx by lia. apply (HR1 m); [lia|done].
      - intros Hc. exists j1, x1. split_and!; [lia|lia|done|by apply below_spec].
      - intros Hc. exists i1, y1. split_and!; [lia|lia|done|by apply above_spec].
      - left. lia. }
    exists arr', i', j'. split; [done|]. split; [|done].
    eapply rearranged_trans; [|exact Hre].
    split_and!; try done.
    + intros m Hm. apply Hoth; lia.
    + intros Q HQ m x Hm Hx.
      destruct (decide (m = i1)) as [->|Hne1].
      { rewrite Hg1 in Hx. injection Hx as <-. apply (HQ j1); [lia|done]. }
      destruct (decide (m = j1)) as [->|Hne2].
      { rewrite Hg2 in Hx. injection Hx as <-. apply (HQ i1); [lia|done]. }
      rewrite Hoth in Hx by done. by apply (HQ m).
  - destruct (IH arr i1 j1) as (arr' & i' & j' & -> & Hre & Hpost); [| lia |].
    { split; try done.
      - lia.
      - intros; lia.
      - intros; lia.
      - destruct HP as [|(k & y & Hk & Hy & Hpy & Hyp)]; [left; lia|].
        exfalso.
        assert (i1 <= k).
        { destruct (decide (i1 <= k)); [done|].
          apply below_spec in Hpy.
          rewrite (Hup k y) in Hpy; [done|lia|done]. }
        assert (k <= j1).
        { destruct (decide (k <= j1)); [done|].
          apply above_spec in Hyp.
          rewrite (Hdown k y) in Hyp; [done|lia|done]. }
        lia. }
    exists arr', i', j'. done.
Qed.

Lemma sortedRange_small arr lo hi : hi <= lo -> sortedRange le arr lo hi.
Proof.
  intros Hs a b x y Ha Hab Hb Hx Hy.
  assert (a = b) as -> by lia.
  rewrite Hx in Hy. injection Hy as ->. apply le_refl.
Qed.

Lemma quickSort_spec fuel arr lo hi :
  (lo < hi -> 0 <= lo /\ hi < Z.of_nat (length arr)) ->
  2 * Z.max 0 (hi - lo + 1) + 2 <= Z.of_nat fuel ->
  exists arr',
    quickSort pivotOf below above fuel arr lo hi = Done arr' /\
    rearranged arr' arr lo hi /\
    sortedRange le arr' lo hi.
Proof.
  revert arr lo hi. induction fuel as [|f IH]; intros arr lo hi Hin Hf; [lia|].
  cbn [quickSort]. destruct (Z.leb_spec hi lo) as [Hs|Hlt].
  { exists arr. split_and!; [done|apply rearranged_refl|by apply sortedRange_small]. }
  destruct (Hin Hlt) as [Hlo Hhi].
  assert (lo <= (lo + hi) ÷ 2 <= hi) as Hmid.
  { rewrite Z.quot_div_nonneg by lia. split.
    - apply Z.div_le_lower_bound; lia.
    - apply Z.div_le_upper_bound; lia. }
  destruct (getZ_in_range arr ((lo + hi) ÷ 2) ltac:(lia)) as [p Hp].
  rewrite (readAt_getZ _ _ _ Hp). cbn [mbind outcome_bind].
  destruct (partitionLoop_spec p lo hi f arr lo hi)
    as (arr1 & i & j & -> & Hre1 & Hji & Hi & Hj & HL & HR); [|lia|].
  { split.
    - lia.
    - intros; lia.
    - intros; lia.
    - intros _. exists ((lo + hi) ÷ 2), p. split_and!; [lia|lia|done|apply le_refl].
    - intros _. exists ((lo + hi) ÷ 2), p. split_and!; [lia|lia|done|apply le_refl].
    - right. exists ((lo + hi) ÷ 2), p.
      split_and!; [lia|lia|done|apply le_refl|apply le_refl]. }
  cbn [mbind outcome_bind].
  pose proof Hre1 as (Hlen1 & _).
  assert (exists arr2,
    (if lo <? j then quickSort pivotOf below above f arr1 lo j else Done arr1)
      = Done arr2 /\
    rearranged arr2 arr1 lo j /\ sortedRange le arr2 lo j)
    as (arr2 & -> & Hre2 & Hs2).
  { destruct (Z.ltb_spec lo j).
    - apply IH; [rewrite Hlen1|]; lia.
    - exists arr1. split_and!; [done|apply rearranged_refl|by apply sortedRange_small]. }
  cbn [mbind outcome_bind].
  pose proof Hre2 as (Hlen2 & _ & Ho2 & HQ2).
  assert (exists arr3,
    (if i <? hi then quickSort pivotOf below above f arr2 i hi else Done arr2)
      = Done arr3 /\
    rearranged arr3 arr2 i hi /\ sortedRange le arr3 i hi)
    as (arr3 & -> & Hre3 & Hs3).
  { destruct (Z.ltb_spec i hi).
    - apply IH; [rewrite Hlen2, Hlen1|]; lia.
    - exists arr2. split_and!; [done|apply rearranged_refl|by apply sortedRange_small]. }
  pose proof Hre3 as (Hlen3 & _ & Ho3 & HQ3).
  exists arr3. split_and!; [done| |].
  - eapply rearranged_trans; [exact Hre1|].
    eapply rearranged_trans.
    + apply (rearranged_widen _ _ lo hi lo j); [lia|lia|exact Hre2].
    + apply (rearranged_widen _ _ lo hi i hi); [lia|lia|exact Hre3].
  - assert (forall m x, lo <= m < i -> getZ arr3 m = Some x -> le x p) as HL3.
    { intros m x Hm Hx. rewrite Ho3 in Hx by lia.
      destruct (decide (m <= j)).
      - apply (HQ2 (fun x => le x p)) with m; [|lia|done].
        intros m' x' Hm' Hx'. apply (HL m'); [lia|done].
      - rewrite Ho2 in Hx by lia. apply (HL m); [lia|done]. }
    assert (forall m x, j < m <= hi -> getZ arr3 m = Some x -> le p x) as HR3.
    { intros m x Hm Hx. destruct (decide (i <= m)).
      - apply (HQ3 (fun x => le p x)) with m; [|lia|done].
        intros m' x' Hm' Hx'. rewrite Ho2 in Hx' by lia.
        apply (HR m'); [lia|done].
      - rewrite Ho3 in Hx by lia. rewrite Ho2 in Hx by lia.
        apply (HR m); [lia|done]. }
    intros a b x y Ha Hab Hb Hx Hy.
    destruct (decide (b <= j)).
    { rewrite Ho3 in Hx, Hy by lia. by apply (Hs2 a b). }
    destruct (decide (i <= a)).
    { by apply (Hs3 a b). }
    apply le_trans with p; [apply (HL3 a)|apply (HR3 b)]; try done; lia.
Qed.

End QuickSortCorrect.

(** More fuel does not change a result. *)
Section QuickSortFuel.
Context {P : Type}.
Variable pivotOf : Student -> P.
Variables below above : Student -> P -> bool.

Lemma scanUp_mono f f' arr pv i r :
  (f <= f')%nat -> scanUp below f arr pv i = Done r ->
  scanUp below f' arr pv i = Done r.
Proof.
  revert f' i. induction f as [|f IH]; intros [|f'] i Hf; simpl; try done; try lia.
  destruct (readAt arr i); simpl; try done.
  destruct (below a pv); [|done]. apply IH. lia.
Qed.

Lemma scanDown_mono f f' arr pv j r :
  (f <= f')%nat -> scanDown above f arr pv j = Done r ->
  scanDown above f' arr pv j = Done r.
Proof.
  revert f' j. induction f as [|f IH]; intros [|f'] j Hf; simpl; try done; try lia.
  destruct (readAt arr j); simpl; try done.
  destruct (above a pv); [|done]. apply IH. lia.
Qed.

Lemma partitionLoop_mono f f' arr pv i j r :
  (f <= f')%nat -> partitionLoop below above f arr pv i j = Done r ->
  partitionLoop below above f' arr pv i j = Done r.
Proof.
  revert f' arr i j. induction f as [|f IH]; intros [|f'] arr i j Hf;
    cbn [partitionLoop]; try done; try lia.
  destruct (i <=? j); [|done].
  destruct (scanUp below f arr pv i) as [i1| |] eqn:Eu; try done.
  rewrite (scanUp_mono f f' arr pv i i1) by (done || lia).
  cbn [mbind outcome_bind].
  destruct (scanDown above f arr pv j) as [j1| |] eqn:Ed; try done.
  rewrite (scanDown_mono f f' arr pv j j1) by (done || lia).
  cbn [mbind outcome_bind].
  destruct (i1 <=? j1).
  - destruct (quickSwap arr i1 j1); try done.
    cbn [mbind outcome_bind]. apply IH. lia.
  - apply IH. lia.
Qed.

Lemma quickSort_mono f f' arr lo hi r :
  (f <= f')%nat -> quickSort pivotOf below above f arr lo hi = Done r ->
  quickSort pivotOf below above f' arr lo hi = Done r.
Proof.
  revert f' arr lo hi r. induction f as [|f IH]; intros [|f'] arr lo hi r Hf;
    cbn [quickSort]; try done; try lia.
  destruct (hi <=? lo); [done|].
  destruct (readAt arr ((lo + hi) ÷ 2)) as [p| |]; try done.
  cbn [mbind outcome_bind].
  destruct (partitionLoop below above f arr (pivotOf p) lo hi)
    as [[[arr1 i] j]| |] eqn:Ep; try done.
  rewrite (partitionLoop_mono f f' _ _ _ _ _ ltac:(lia) Ep).
  cbn [mbind outcome_bind].
  destruct (lo <? j).
  - destruct (quickSort pivotOf below above f arr1 lo j) as [arr2| |] eqn:E1;
      try done.
    rewrite (IH f' _ _ _ _ ltac:(lia) E1). cbn [mbind outcome_bind].
    destruct (i <? hi); [|done]. apply IH. lia.
  - cbn [mbind outcome_bind]. destruct (i <? hi); [|done]. apply IH. lia.
Qed.
End QuickSortFuel.

(** ** The quicksort, whatever its two tests

    No order is assumed here: the two tests of the inner loops are any
    boolean functions.  A run that returns has only permuted the array; and
    as soon as the pivot record fails both tests, every run on an in-bounds
    range returns, having rearranged that range only. *)

Lemma readAt_Done {A} (arr : list A) i x :
  readAt arr i = Done x -> getZ arr i = Some x.
Proof.
  unfold readAt, getZ. destruct (i <? 0); [done|].
  destruct (arr !! Z.to_nat i); [|done]. by intros [= ->].
Qed.

Lemma getZ_elem_of {A} (arr : list A) i x : getZ arr i = Some x -> x ∈ arr.
Proof.
  unfold getZ. destruct (i <? 0); [done|]. apply list_elem_of_lookup_2.
Qed.

Lemma readAt_elem_of {A} (arr : list A) i x : readAt arr i = Done x -> x ∈ arr.
Proof. intros Hr. eapply getZ_elem_of, readAt_Done, Hr. Qed.

Lemma quickSwap_perm arr i j arr1 :
  quickSwap arr i j = Done arr1 -> arr1 ≡ₚ arr.
Proof.
  intros Hrun. pose proof Hrun as Hrun0. unfold quickSwap in Hrun0.
  destruct (readAt arr i) as [x| |] eqn:Ex; try done.
  destruct (readAt arr j) as [y| |] eqn:Ey; try done.
  destruct (quickSwap_spec arr i j x y) as (arr1' & Hrun' & _ & Hperm & _);
    [by apply readAt_Done..|].
  rewrite Hrun in Hrun'. by injection Hrun' as ->.
Qed.

Lemma quickSwap_rearranged arr i j arr1 lo hi :
  lo <= i <= hi -> lo <= j <= hi ->
  quickSwap arr i j = Done arr1 -> rearranged arr1 arr lo hi.
Proof.
  intros Hi Hj Hrun. pose proof Hrun as Hrun0. unfold quickSwap in Hrun0.
  destruct (readAt arr i) as [x| |] eqn:Ex; try done.
  destruct (readAt arr j) as [y| |] eqn:Ey; try done.
  apply readAt_Done in Ex, Ey.
  destruct (quickSwap_spec arr i j x y Ex Ey)
    as (arr1' & Hrun' & Hlen & Hperm & Hg1 & Hg2 & Hoth).
  rewrite Hrun in Hrun'. injection Hrun' as <-.
  split_and!; try done.
  - intros m Hm. apply Hoth; lia.
  - intros Q HQ m z Hm Hz.
    destruct (decide (m = i)) as [->|Hne1].
    { rewrite Hg1 in Hz. injection Hz as <-. by apply (HQ j). }
    destruct (decide (m = j)) as [->|Hne2].
    { rewrite Hg2 in Hz. injection Hz as <-. by apply (HQ i). }
    rewrite Hoth in Hz by done. by apply (HQ m).
Qed.

Section QuickSortSafe.
Context {P : Type}.
Variable pivotOf : Student -> P.
Variables below above : Student -> P -> bool.

Lemma partitionLoop_perm fuel arr pv i j arr' i' j' :
  partitionLoop below above fuel arr pv i j = Done (arr', i', j') ->
  arr' ≡ₚ arr.
Proof.
  revert arr i j. induction fuel as [|f IH]; intros arr i j;
    cbn [partitionLoop]; [done|].
  destruct (i <=? j); [|by intros [= -> _ _]].
  destruct (scanUp below f arr pv i) as [i1| |]; try done.
  destruct (scanDown above f arr pv j) as [j1| |]; try done.
  cbn [mbind outcome_bind].
  destruct (i1 <=? j1); [|apply IH].
  destruct (quickSwap arr i1 j1) as [arr1| |] eqn:Es; try done.
  cbn [mbind outcome_bind]. intros Hrun%IH.
  rewrite Hrun. by apply quickSwap_perm in Es.
Qed.

Lemma quickSort_perm fuel arr lo hi arr' :
  quickSort pivotOf below above fuel arr lo hi = Done arr' -> arr' ≡ₚ arr.
Proof.
  revert arr lo hi arr'. induction fuel as [|f IH]; intros arr lo hi arr';
    cbn [quickSort]; [done|].
  destruct (hi <=? lo); [by intros [= ->]|].
  destruct (readAt arr ((lo + hi) ÷ 2)) as [p| |]; try done.
  cbn [mbind outcome_bind].
  destruct (partitionLoop below above f arr (pivotOf p) lo hi)
    as [[[arr1 i] j]| |] eqn:Ep; try done.
  apply partitionLoop_perm in Ep.
  cbn [mbind outcome_bind].
  assert (forall arr2,
    (if lo <? j then quickSort pivotOf below above f arr1 lo j else Done arr1)
      = Done arr2 -> arr2 ≡ₚ arr1) as H2.
  { intros arr2. destruct (lo <? j); [apply IH|by intros [= ->]]. }
  destruct (if lo <? j then _ else _) as [arr2| |]; try done.
  specialize (H2 arr2 eq_refl).
  cbn [mbind outcome_bind].
  destruct (i <? hi).
  - intros Hrun%IH. by rewrite Hrun, H2.
  - intros [= <-]. by rewrite H2.
Qed.

(** The partition loop returns from every state in which each scan has a
    cell ahead that stops it, and leaves [j < hi] and [lo < i]. *)
Lemma partitionLoop_safe pv lo hi fuel arr i j :
  partStops below above pv lo hi arr i j ->
  (hi - lo + 2) + Z.max 0 (j - i + 1) <= Z.of_nat fuel ->
  exists arr' i' j',
    partitionLoop below above fuel arr pv i j = Done (arr', i', j') /\
    rearranged arr' arr lo hi /\
    j' < i' /\ lo < i' <= hi + 1 /\ lo - 1 <= j' < hi.
Proof.
  revert arr i j. induction fuel as [|f IH]; intros arr i j Inv Hf.
  { destruct Inv as [(? & ? & ? & ?) _ _ _]. lia. }
  destruct Inv as [(Hlo & Hhi & Hi & Hj) HU HD HP].
  cbn [partitionLoop]. destruct (Z.leb_spec i j) as [Hij|Hij].
  2:{ assert (lo < i /\ j < hi) by (destruct HP as [|(k & y & ? & _)]; lia).
      exists arr, i, j.
      split_and!; try lia; try done; try apply rearranged_refl. }
  destruct (HU Hij) as (ku & yu & Hku & Hyu & Hbu).
  destruct (HD Hij) as (kd & yd & Hkd & Hyd & Hbd).
  destruct (scanUp_spec below f arr pv i ku yu)
    as (i1 & x1 & -> & Hi1 & Hx1 & Hb1 & Hup); [lia|done|done|lia|].
  destruct (scanDown_spec above f arr pv j kd yd)
    as (j1 & y1 & -> & Hj1 & Hy1 & Ha1 & Hdown); [lia|lia|done|done|lia|].
  cbn [mbind outcome_bind].
  destruct (Z.leb_spec i1 j1) as [Hsw|Hsw].
  - destruct (quickSwap_spec arr i1 j1 x1 y1 Hx1 Hy1)
      as (arr1 & Hswap & Hlen & Hperm & Hg1 & Hg2 & Hoth).
    rewrite Hswap. cbn [mbind outcome_bind].
    destruct (IH arr1 (i1 + 1) (j1 - 1))
      as (arr' & i' & j' & -> & Hre & Hpost); [| lia |].
    { split.
      - rewrite Hlen. lia.
      - intros Hc. exists j1, x1. split_and!; [lia|lia|done|done].
      - intros Hc. exists i1, y1. split_and!; [lia|lia|done|done].
      - left. lia. }
    exists arr', i', j'. split; [done|]. split; [|done].
    eapply rearranged_trans; [|exact Hre].
    apply (quickSwap_rearranged arr i1 j1); [lia|lia|done].
  - destruct (IH arr i1 j1) as (arr' & i' & j' & -> & Hre & Hpost); [| lia |].
    { split.
      - lia.
      - intros; lia.
      - intros; lia.
      - destruct HP as [|(k & y & Hk & Hy & Hby & Hay)]; [left; lia|].
        exfalso.
        assert (i1 <= k).
        { destruct (decide (i1 <= k)); [done|].
          rewrite (Hup k y) in Hby; [done|lia|done]. }
        assert (k <= j1).
        { destruct (decide (k <= j1)); [done|].
          rewrite (Hdown k y) in Hay; [done|lia|done]. }
        lia. }
    exists arr', i', j'. done.
Qed.

Hypothesis below_pivot : forall p, below p (pivotOf p) = false.
Hypothesis above_pivot : forall p, above p (pivotOf p) = false.

(** At the first test [i <= j] the middle cell stops both scans. *)
Lemma partStops_start arr lo hi p :
  0 <= lo -> lo < hi -> hi < Z.of_nat (length arr) ->
  getZ arr ((lo + hi) ÷ 2) = Some p ->
  partStops below above (pivotOf p) lo hi arr lo hi.
Proof.
  intros Hlo Hlt Hhi Hp.
  assert (lo <= (lo + hi) ÷ 2 <= hi) as Hmid.
  { rewrite Z.quot_div_nonneg by lia. split.
    - apply Z.div_le_lower_bound; lia.
    - apply Z.div_le_upper_bound; lia. }
  split.
  - lia.
  - intros _. exists ((lo + hi) ÷ 2), p. split_and!; [lia|lia|done|done].
  - intros _. exists ((lo + hi) ÷ 2), p. split_and!; [lia|lia|done|done].
  - right. exists ((lo + hi) ÷ 2), p. split_and!; [lia|lia|done|done|done].
Qed.

Lemma quickSort_safe fuel arr lo hi :
  (lo < hi -> 0 <= lo /\ hi < Z.of_nat (length arr)) ->
  2 * Z.max 0 (hi - lo + 1) + 2 <= Z.of_nat fuel ->
  exists arr',
    quickSort pivotOf below above fuel arr lo hi = Done arr' /\
    rearranged arr' arr lo hi.
Proof.
  revert arr lo hi. induction fuel as [|f IH]; intros arr lo hi Hin Hf; [lia|].
  cbn [quickSort]. destruct (Z.leb_spec hi lo) as [Hs|Hlt].
  { exists arr. split; [done|apply rearranged_refl]. }
  destruct (Hin Hlt) as [Hlo Hhi].
  assert (0 <= (lo + hi) ÷ 2 < Z.of_nat (length arr)) as Hmid.
  { rewrite Z.quot_div_nonneg by lia. split.
    - apply Z.div_le_lower_bound; lia.
    - apply Z.div_lt_upper_bound; lia. }
  destruct (getZ_in_range arr ((lo + hi) ÷ 2) Hmid) as [p Hp].
  rewrite (readAt_getZ _ _ _ Hp). cbn [mbind outcome_bind].
  destruct (partitionLoop_safe (pivotOf p) lo hi f arr lo hi)
    as (arr1 & i & j & -> & Hre1 & Hji & Hi & Hj); [|lia|].
  { by apply partStops_start. }
  cbn [mbind outcome_bind].
  pose proof Hre1 as (Hlen1 & _).
  assert (exists arr2,
    (if lo <? j then quickSort pivotOf below above f arr1 lo j else Done arr1)
      = Done arr2 /\
    rearranged arr2 arr1 lo j) as (arr2 & -> & Hre2).
  { destruct (Z.ltb_spec lo j).
    - apply IH; [rewrite Hlen1|]; lia.
    - exists arr1. split; [done|apply rearranged_refl]. }
  cbn [mbind outcome_bind].
  pose proof Hre2 as (Hlen2 & _).
  assert (exists arr3,
    (if i <? hi then quickSort pivotOf below above f arr2 i hi else Done arr2)
      = Done arr3 /\
    rearranged arr3 arr2 i hi) as (arr3 & -> & Hre3).
  { destruct (Z.ltb_spec i hi).
    - apply IH; [rewrite Hlen2, Hlen1|]; lia.
    - exists arr2. split; [done|apply rearranged_refl]. }
  exists arr3. split; [done|].
  eapply rearranged_trans; [exact Hre1|].
  eapply rearranged_trans.
  - apply (rearranged_widen _ _ lo hi lo j); [lia|lia|exact Hre2].
  - apply (rearranged_widen _ _ lo hi i hi); [lia|lia|exact Hre3].
Qed.
End QuickSortSafe.

(** Two pairs of tests that agree on the records of the array give the same
    run. *)
Section QuickSortExt.
Context {P : Type}.
Variable pivotOf : Student -> P.
Variables below above below' above' : Student -> P -> bool.

Lemma scanUp_ext fuel arr pv i :
  (forall x, x ∈ arr -> below x pv = below' x pv) ->
  scanUp below fuel arr pv i = scanUp below' fuel arr pv i.
Proof.
  intros Hext. revert i. induction fuel as [|f IH]; intros i; cbn [scanUp];
    [done|].
  destruct (readAt arr i) as [x| |] eqn:Ex; try done.
  cbn [mbind outcome_bind].
  rewrite <- Hext by (by apply readAt_elem_of in Ex).
  destruct (below x pv); [apply IH|done].
Qed.

Lemma scanDown_ext fuel arr pv j :
  (forall x, x ∈ arr -> above x pv = above' x pv) ->
  scanDown above fuel arr pv j = scanDown above' fuel arr pv j.
Proof.
  intros Hext. revert j. induction fuel as [|f IH]; intros j; cbn [scanDown];
    [done|].
  destruct (readAt arr j) as [x| |] eqn:Ex; try done.
  cbn [mbind outcome_bind].
  rewrite <- Hext by (by apply readAt_elem_of in Ex).
  destruct (above x pv); [apply IH|done].
Qed.

Lemma partitionLoop_ext fuel arr pv i j :
  (forall x, x ∈ arr -> below x pv = below' x pv) ->
  (forall x, x ∈ arr -> above x pv = above' x pv) ->
  partitionLoop below above fuel arr pv i j
    = partitionLoop below' above' fuel arr pv i j.
Proof.
  revert arr i j. induction fuel as [|f IH]; intros arr i j Hb Ha;
    cbn [partitionLoop]; [done|].
  destruct (i <=? j); [|done].
  rewrite (scanUp_ext f arr pv i Hb).
  destruct (scanUp below' f arr pv i) as [i1| |]; try done.
  cbn [mbind outcome_bind].
  rewrite (scanDown_ext f arr pv j Ha).
  destruct (scanDown above' f arr pv j) as [j1| |]; try done.
  cbn [mbind outcome_bind].
  destruct (i1 <=? j1); [|by apply IH].
  destruct (quickSwap arr i1 j1) as [arr1| |] eqn:Es; try done.
  cbn [mbind outcome_bind]. apply quickSwap_perm in Es.
  apply IH; intros x Hx; [apply Hb|apply Ha]; by rewrite <- Es.
Qed.

Variable good : Student -> Prop.
Hypothesis below_ext : forall x p,
  good x -> good p -> below x (pivotOf p) = below' x (pivotOf p).
Hypothesis above_ext : forall x p,
  good x -> good p -> above x (pivotOf p) = above' x (pivotOf p).

Lemma quickSort_ext fuel arr lo hi :
  Forall good arr ->
  quickSort pivotOf below above fuel arr lo hi
    = quickSort pivotOf below' above' fuel arr lo hi.
Proof.
  revert arr lo hi. induction fuel as [|f IH]; intros arr lo hi Hg;
    cbn [quickSort]; [done|].
  destruct (hi <=? lo); [done|].
  destruct (readAt arr ((lo + hi) ÷ 2)) as [p| |] eqn:Ep; try done.
  cbn [mbind outcome_bind].
  pose proof Hg as Hall. rewrite Forall_forall in Hall.
  assert (good p) as Hp by (by apply Hall, (readAt_elem_of _ _ _ Ep)).
  rewrite (partitionLoop_ext f arr (pivotOf p) lo hi)
    by (intros x Hx; auto).
  destruct (partitionLoop below' above' f arr (pivotOf p) lo hi)
    as [[[arr1 i] j]| |] eqn:Epart; try done.
  cbn [mbind outcome_bind].
  assert (Forall good arr1) as Hg1.
  { by rewrite (partitionLoop_perm _ _ _ _ _ _ _ _ _ _ Epart). }
  assert ((if lo <? j then quickSort pivotOf below above f arr1 lo j
           else Done arr1)
          = (if lo <? j then quickSort pivotOf below' above' f arr1 lo j
             else Done arr1)) as ->.
  { destruct (lo <? j); [by apply IH|done]. }
  destruct (if lo <? j then _ else _) as [arr2| |] eqn:E2; try done.
  cbn [mbind outcome_bind].
  assert (Forall good arr2) as Hg2.
  { destruct (lo <? j); [|by injection E2 as <-].
    by rewrite (quickSort_perm _ _ _ _ _ _ _ _ E2). }
  destruct (i <? hi); [by apply IH|done].
Qed.
End QuickSortExt.

(** ** The two instances *)

Lemma rollLe_trans x y z : rollLe x y -> rollLe y z -> rollLe x z.
Proof. apply strcmp_le_trans. Qed.

Lemma rollLe_total x y : rollLe x y \/ rollLe y x.
Proof.
  unfold rollLe. rewrite (strcmp_antisym (getRoll x) (getRoll y)). lia.
Qed.

Lemma roll_below_spec x p :
  (strcmp (getRoll x) (getRoll p) <? 0) = false <-> rollLe p x.
Proof.
  unfold rollLe. rewrite (strcmp_antisym (getRoll x) (getRoll p)).
  destruct (Z.ltb_spec (strcmp (getRoll x) (getRoll p)) 0); split; try done; lia.
Qed.

Lemma roll_above_spec x p :
  (0 <? strcmp (getRoll x) (getRoll p)) = false <-> rollLe x p.
Proof.
  unfold rollLe.
  destruct (Z.ltb_spec 0 (strcmp (getRoll x) (getRoll p))); split; try done; lia.
Qed.

Lemma Qltb_false x y : Qltb x y = false <-> (y <= x)%Q.
Proof.
  unfold Qltb. rewrite negb_false_iff. apply Qle_bool_iff.
Qed.

Lemma dlt_irrefl x : dlt x x = false.
Proof. destruct x as [|q| |]; try done. apply Qltb_false, Qle_refl. Qed.

Lemma dlt_tlt x y : x <> DNaN -> y <> DNaN -> dlt x y = tlt x y.
Proof. by destruct x, y. Qed.

Lemma markLeT_trans mc x y z :
  markLeT mc x y -> markLeT mc y z -> markLeT mc x z.
Proof.
  unfold markLeT.
  destruct (getComponent x mc) as [|a| |], (getComponent y mc) as [|b| |],
    (getComponent z mc) as [|c| |]; cbn [tlt dlt]; try done.
  rewrite !Qltb_false. apply Qle_trans.
Qed.

Lemma markLeT_total mc x y : markLeT mc x y \/ markLeT mc y x.
Proof.
  unfold markLeT.
  destruct (getComponent x mc) as [|a| |], (getComponent y mc) as [|b| |];
    cbn [tlt dlt]; auto.
  rewrite !Qltb_false.
  destruct (Qlt_le_dec a b); [left|by right]. by apply Qlt_le_weak.
Qed.

Lemma markLeT_markLe mc x y :
  numeric mc x -> numeric mc y -> markLeT mc x y -> markLe mc x y.
Proof.
  unfold numeric, markLeT, markLe.
  destruct (getComponent x mc), (getComponent y mc); try done.
  cbn [tlt dlt dle]. by rewrite Qltb_false.
Qed.

Lemma quickSortRoll_spec fuel arr lo hi :
  (lo < hi -> 0 <= lo /\ hi < Z.of_nat (length arr)) ->
  2 * Z.max 0 (hi - lo + 1) + 2 <= Z.of_nat fuel ->
  exists arr',
    quickSortRoll fuel arr lo hi = Done arr' /\
    rearranged arr' arr lo hi /\
    sortedRange rollLe arr' lo hi.
Proof.
  apply quickSort_spec.
  - apply rollLe_trans.
  - apply rollLe_total.
  - intros x p. apply roll_below_spec.
  - intros x p. apply roll_above_spec.
Qed.

(** [quickSortMarks] returns on every array, NaN marks included. *)
Lemma quickSortMarks_safe fuel arr lo hi mc :
  (lo < hi -> 0 <= lo /\ hi < Z.of_nat (length arr)) ->
  2 * Z.max 0 (hi - lo + 1) + 2 <= Z.of_nat fuel ->
  exists arr',
    quickSortMarks fuel arr lo hi mc = Done arr' /\
    rearranged arr' arr lo hi.
Proof. apply quickSort_safe; intros p; apply dlt_irrefl. Qed.

(** It sorts an array whose marks are all numbers. *)
Lemma quickSortMarks_spec fuel arr lo hi mc :
  (lo < hi -> 0 <= lo /\ hi < Z.of_nat (length arr)) ->
  2 * Z.max 0 (hi - lo + 1) + 2 <= Z.of_nat fuel ->
  Forall (numeric mc) arr ->
  exists arr',
    quickSortMarks fuel arr lo hi mc = Done arr' /\
    rearranged arr' arr lo hi /\
    sortedRange (markLeT mc) arr' lo hi /\
    sortedRange (markLe mc) arr' lo hi.
Proof.
  intros Hin Hf Hnum. unfold quickSortMarks.
  rewrite (quickSort_ext (fun p => getComponent p mc) _ _
             (fun x pv => tlt (getComponent x mc) pv)
             (fun x pv => tlt pv (getComponent x mc)) (numeric mc));
    [|by intros; apply dlt_tlt..|done].
  destruct (quickSort_spec (fun p => getComponent p mc)
              (fun x pv => tlt (getComponent x mc) pv)
              (fun x pv => tlt pv (getComponent x mc))
              (markLeT mc) (markLeT_trans mc) (markLeT_total mc)
              (fun x p => iff_refl _) (fun x p => iff_refl _)
              fuel arr lo hi Hin Hf) as (arr' & Hrun & Hre & Hs).
  exists arr'. split_and!; [done|done|done|].
  destruct Hre as (_ & Hperm & _).
  rewrite <- Hperm, Forall_forall in Hnum.
  intros a b x y Ha Hab Hb Hx Hy.
  apply markLeT_markLe; [by eapply Hnum, getZ_elem_of..|by apply (Hs a b)].
Qed.

Lemma sortedRange_all (le : Student -> Student -> Prop) arr :
  sortedRange le arr 0 (Z.of_nat (length arr) - 1) ->
  StronglySorted le arr.
Proof.
  intros Hs.
  assert (forall (a b : nat) x y, (a < b)%nat ->
            arr !! a = Some x -> arr !! b = Some y -> le x y) as Hn.
  { intros a b x y Hab Ha Hb.
    pose proof (lookup_lt_Some _ _ _ Hb).
    apply (Hs (Z.of_nat a) (Z.of_nat b)); try lia.
    - unfold getZ. destruct (Z.ltb_spec (Z.of_nat a) 0); [lia|].
      by rewrite Nat2Z.id.
    - unfold getZ. destruct (Z.ltb_spec (Z.of_nat b) 0); [lia|].
      by rewrite Nat2Z.id. }
  clear Hs. induction arr as [|x arr IH]; constructor.
  - apply IH. intros a b x' y' Hab Ha Hb.
    apply (Hn (S a) (S b)); [lia|done..].
  - apply Forall_lookup. intros b y Hb.
    apply (Hn 0%nat (S b)); [lia|done..].
Qed.

Lemma sortFuel_enough (n : nat) :
  2 * Z.max 0 (Z.of_nat n - 1 - 0 + 1) + 2 <= Z.of_nat (sortFuel n).
Proof. unfold sortFuel. lia. Qed.

Lemma snapshot_in_bounds (S : list Student) :
  0 < Z.of_nat (length S) - 1 ->
  0 <= 0 /\ Z.of_nat (length S) - 1 < Z.of_nat (length S).
Proof. lia. Qed.

(** ** Sorting a snapshot *)

Lemma sortByIdentity_ok (S : list Student) :
  exists S',
    sortByIdentity S = Done S' /\ S' ≡ₚ S /\ StronglySorted rollLe S'.
Proof.
  destruct (quickSortRoll_spec (sortFuel (length S)) S 0
              (Z.of_nat (length S) - 1))
    as (S' & Hrun & (Hlen & Hperm & _) & Hsorted).
  - apply snapshot_in_bounds.
  - apply sortFuel_enough.
  - exists S'. split_and!; [done|done|].
    apply sortedRange_all. by rewrite Hlen.
Qed.

Lemma sortByField_safe (S : list Student) (mc : MarkComponent) :
  exists S', sortByField S mc = Done S' /\ S' ≡ₚ S.
Proof.
  destruct (quickSortMarks_safe (sortFuel (length S)) S 0
              (Z.of_nat (length S) - 1) mc)
    as (S' & Hrun & (Hlen & Hperm & _)).
  - apply snapshot_in_bounds.
  - apply sortFuel_enough.
  - by exists S'.
Qed.

Lemma sortByField_ok (S : list Student) (mc : MarkComponent) :
  Forall (numeric mc) S ->
  exists S',
    sortByField S mc = Done S' /\ S' ≡ₚ S /\
    StronglySorted (markLeT mc) S' /\ StronglySorted (markLe mc) S'.
Proof.
  intros Hnum.
  destruct (quickSortMarks_spec (sortFuel (length S)) S 0
              (Z.of_nat (length S) - 1) mc)
    as (S' & Hrun & (Hlen & Hperm & _) & HsT & Hs).
  - apply snapshot_in_bounds.
  - apply sortFuel_enough.
  - done.
  - exists S'. split_and!; [done|done| |];
      apply sortedRange_all; by rewrite Hlen.
Qed.

Lemma rolls_sorted (S : list Student) :
  StronglySorted rollLe S -> StronglySorted strLe (getRoll <$> S).
Proof. by apply (StronglySorted_fmap getRoll rollLe strLe). Qed.

(** C5: [sortByIdentity] returns a permutation of the snapshot whose rolls
    are in non-decreasing order of [strcmp], the byte-wise lexicographic
    comparison. *)
Theorem sortByIdentity_sorted_perm (S : list Student) :
  exists S',
    sortByIdentity S = Done S' /\
    S' ≡ₚ S /\
    StronglySorted strLe (getRoll <$> S').
Proof.
  destruct (sortByIdentity_ok S) as (S' & Hrun & Hperm & Hsorted).
  exists S'. split_and!; [done|done|].
  by apply rolls_sorted.
Qed.

(** The part of C1 that the code keeps: [sortByField] returns a permutation
    of the snapshot, whatever the marks are; when no mark of the chosen
    component is a NaN, the component is non-decreasing in it. *)
Theorem sortByField_sorted_perm (S : list Student) (mc : MarkComponent) :
  exists S',
    sortByField S mc = Done S' /\
    S' ≡ₚ S /\
    (Forall (numeric mc) S ->
     StronglySorted dle ((fun s => getComponent s mc) <$> S')).
Proof.
  destruct (sortByField_safe S mc) as (S' & Hrun & Hperm).
  exists S'. split_and!; [done|done|].
  intros Hnum.
  destruct (sortByField_ok S mc Hnum) as (S2 & Hrun2 & _ & _ & Hsorted).
  rewrite Hrun in Hrun2. injection Hrun2 as <-.
  by apply (StronglySorted_fmap (fun s => getComponent s mc) (markLe mc) dle).
Qed.

Lemma sortByField_sorted_perm_witness :
  let a := mkStudent BTechStudent "Amit Kumar" "20CS1001" BR_CSE
             (mkMarks 15 24 10 45) 0 in
  let b := mkStudent MTechStudent "Sunita Sharma" "21EC2001" BR_ECE
             (mkMarks 18 28 12 40) 1 in
  let c := mkStudent PhDStudent "Rahul Verma" "19CS0999" BR_CSE
             (mkMarks 20 30 15 50) 2 in
  exists S',
    sortByField [c; b; a] MC_FINAL = Done S' /\
    StronglySorted dle ((fun s => getComponent s MC_FINAL) <$> S').
Proof.
  intros a b c.
  destruct (sortByField_sorted_perm [c; b; a] MC_FINAL) as (S' & Hrun & _ & Hs).
  exists S'. split; [exact Hrun|]. apply Hs.
  repeat constructor; discriminate.
Defined.

(** A NaN among the marks can leave the numbers out of order. *)
Example sortByField_nan_unsorted :
  let r (m : double) := setMarks (mkMarks 0 m 0 0) (newStudent BTechStudent) in
  sortByField [r 5; r 1; r DNaN; r 0; r 4] MC_MID
    = Done [r 0; r 4; r DNaN; r 1; r 5].
Proof. reflexivity. Qed.

(** C10: on every array and every in-bounds range the two quicksorts
    return, without stepping outside the array, as soon as the fuel covers
    the range, and more fuel gives the same array; the partition of a range
    of two or more cells ends with [j < hi] and [lo < i], so both recursive
    calls get a strictly smaller range. *)
Theorem quickSort_terminates (arr : list Student) (lo hi : Z)
    (mc : MarkComponent) (fuel : nat) :
  (lo < hi -> 0 <= lo /\ hi < Z.of_nat (length arr)) ->
  (sortFuel (Z.to_nat (hi - lo + 1)) <= fuel)%nat ->
  (exists out,
     quickSortRoll fuel arr lo hi = Done out /\
     forall fuel', (fuel <= fuel')%nat ->
       quickSortRoll fuel' arr lo hi = Done out) /\
  (exists out,
     quickSortMarks fuel arr lo hi mc = Done out /\
     forall fuel', (fuel <= fuel')%nat ->
       quickSortMarks fuel' arr lo hi mc = Done out) /\
  (lo < hi ->
   forall pivot, getZ arr ((lo + hi) ÷ 2) = Some pivot ->
   (exists arr1 i j,
      partitionLoop
        (fun x pivot => strcmp (getRoll x) (getRoll pivot) <? 0)
        (fun x pivot => 0 <? strcmp (getRoll x) (getRoll pivot))
        (Nat.pred fuel) arr pivot lo hi = Done (arr1, i, j) /\
      lo - 1 <= j < hi /\ lo < i <= hi + 1) /\
   (exists arr1 i j,
      partitionLoop
        (fun x pivotVal => dlt (getComponent x mc) pivotVal)
        (fun x pivotVal => dlt pivotVal (getComponent x mc))
        (Nat.pred fuel) arr (getComponent pivot mc) lo hi = Done (arr1, i, j) /\
      lo - 1 <= j < hi /\ lo < i <= hi + 1)).
Proof.
  intros Hin Hfuel. unfold sortFuel in Hfuel.
  assert (2 * Z.max 0 (hi - lo + 1) + 2 <= Z.of_nat fuel) as Hf by lia.
  split_and!.
  - destruct (quickSortRoll_spec fuel arr lo hi Hin Hf) as (out & Hrun & _).
    exists out. split; [done|]. intros fuel' Hle.
    by apply (quickSort_mono _ _ _ fuel fuel').
  - destruct (quickSortMarks_safe fuel arr lo hi mc Hin Hf) as (out & Hrun & _).
    exists out. split; [done|]. intros fuel' Hle.
    by apply (quickSort_mono _ _ _ fuel fuel').
  - intros Hlt pivot Hp. destruct (Hin Hlt) as [Hlo Hhi].
    assert (lo <= (lo + hi) ÷ 2 <= hi) as Hmid.
    { rewrite Z.quot_div_nonneg by lia. split.
      - apply Z.div_le_lower_bound; lia.
      - apply Z.div_le_upper_bound; lia. }
    split.
    + destruct (partitionLoop_spec (fun p => p)
                  (fun x pivot => strcmp (getRoll x) (getRoll pivot) <? 0)
                  (fun x pivot => 0 <? strcmp (getRoll x) (getRoll pivot))
                  rollLe rollLe_total
                  (fun x p => roll_below_spec x p)
                  (fun x p => roll_above_spec x p)
                  pivot lo hi (Nat.pred fuel) arr lo hi)
        as (arr1 & i & j & Hrun & _ & _ & Hi & Hj & _); [|lia|].
      { split; try (intros; lia).
        - intros _. exists ((lo + hi) ÷ 2), pivot.
          split_and!; try done; try lia. by destruct (rollLe_total pivot pivot).
        - intros _. exists ((lo + hi) ÷ 2), pivot.
          split_and!; try done; try lia. by destruct (rollLe_total pivot pivot).
        - right. exists ((lo + hi) ÷ 2), pivot.
          split_and!; try done; try lia;
            by destruct (rollLe_total pivot pivot). }
      exists arr1, i, j. split_and!; try done; lia.
    + destruct (partitionLoop_safe
                  (fun x pivotVal => dlt (getComponent x mc) pivotVal)
                  (fun x pivotVal => dlt pivotVal (getComponent x mc))
                  (getComponent pivot mc) lo hi (Nat.pred fuel) arr lo hi)
        as (arr1 & i & j & Hrun & _ & _ & Hi & Hj); [|lia|].
      { apply (partStops_start (fun p => getComponent p mc)); try done;
          intros p; apply dlt_irrefl. }
      exists arr1, i, j. split_and!; try done; lia.
Qed.

Lemma quickSort_terminates_witness :
  let a := mkStudent BTechStudent "Amit Kumar" "20CS1001" BR_CSE
             (mkMarks 15 24 10 45) 0 in
  let b := mkStudent MTechStudent "Sunita Sharma" "21EC2001" BR_ECE
             (mkMarks 18 28 12 40) 1 in
  let c := mkStudent PhDStudent "Rahul Verma" "19CS0999" BR_CSE
             (mkMarks 20 30 15 50) 2 in
  exists out, quickSortRoll 8 [c; b; a] 0 2 = Done out.
Proof.
  intros a b c.
  destruct (quickSort_terminates [c; b; a] 0 2 MC_MID 8) as [(out & H & _) _].
  - intros _. simpl. lia.
  - vm_compute. lia.
  - exists out. exact H.
Defined.

#[local] Instance strLe_antisym : AntiSymm (=) strLe.
Proof.
  intros a b Hab Hba. unfold strLe in *.
  rewrite (strcmp_antisym a b) in Hba. apply strcmp_eq. lia.
Qed.

Lemma fmap_eq_perm_eq {A B} (f : A -> B) (l1 l2 : list A) :
  f <$> l1 = f <$> l2 -> l1 ≡ₚ l2 -> NoDup (f <$> l1) -> l1 = l2.
Proof.
  revert l2. induction l1 as [|a l1 IH]; intros [|b l2] Hmap Hperm Hnd;
    try done.
  rewrite !fmap_cons in Hmap. rewrite fmap_cons in Hnd.
  assert (f a = f b /\ f <$> l1 = f <$> l2) as [Hab Hmap'].
  { by injection Hmap. }
  apply NoDup_cons in Hnd as [Hnotin Hnd].
  assert (a = b) as ->.
  { assert (a ∈ b :: l2) as Hin by (rewrite <- Hperm; left).
    apply elem_of_cons in Hin as [|Hin]; [done|].
    destruct Hnotin. rewrite Hmap'. by apply list_elem_of_fmap_2. }
  f_equal. apply IH; [done| |done].
  by apply Permutation_cons_inv in Hperm.
Qed.

(** C3, as the code has it: sorting a sorted snapshot again returns the
    same sequence of rolls, and the same sequence of records when no two
    records of the snapshot share a roll. *)
Theorem sortByIdentity_twice (S : list Student) :
  exists S1 S2,
    sortByIdentity S = Done S1 /\
    sortByIdentity S1 = Done S2 /\
    getRoll <$> S2 = getRoll <$> S1 /\
    (NoDup (getRoll <$> S) -> S2 = S1).
Proof.
  destruct (sortByIdentity_ok S) as (S1 & Hrun1 & Hperm1 & Hs1).
  destruct (sortByIdentity_ok S1) as (S2 & Hrun2 & Hperm2 & Hs2).
  apply rolls_sorted in Hs1, Hs2.
  assert (getRoll <$> S2 = getRoll <$> S1) as Hrolls.
  { apply (StronglySorted_unique strLe); [done|done|]. by rewrite Hperm2. }
  exists S1, S2. split_and!; try done.
  intros Hnd. apply (fmap_eq_perm_eq getRoll); [done|done|].
  by rewrite Hperm2, Hperm1.
Qed.

(** C3, as stated, fails on two records that share a roll: each sort swaps
    them. *)
Lemma sortByIdentity_not_idempotent :
  let a := mkStudent BTechStudent "Amit Kumar" "20CS1001" BR_CSE
             (mkMarks 15 24 10 45) 0 in
  let b := mkStudent MTechStudent "Sunita Sharma" "20CS1001" BR_ECE
             (mkMarks 18 28 12 40) 1 in
  sortByIdentity [a; b] = Done [b; a] /\
  sortByIdentity [b; a] = Done [a; b] /\
  ~ (forall S S1 S2 : list Student,
       sortByIdentity S = Done S1 -> sortByIdentity S1 = Done S2 -> S2 = S1).
Proof.
  intros a b.
  assert (sortByIdentity [a; b] = Done [b; a]) as H1 by (by vm_compute).
  assert (sortByIdentity [b; a] = Done [a; b]) as H2 by (by vm_compute).
  split_and!; [done|done|].
  intros H. specialize (H _ _ _ H1 H2). discriminate H.
Qed.

(** C1, at a snapshot of two records with equal midterm marks: the sort
    leaves roll "21EC2001" before roll "20CS1001", although
    [cmpByMarksPtrFactory] orders them the other way. *)
Lemma sortByField_ignores_tie_break :
  let a := mkStudent BTechStudent "Amit Kumar" "20CS1001" BR_CSE
             (mkMarks 15 24 10 45) 0 in
  let b := mkStudent MTechStudent "Sunita Sharma" "21EC2001" BR_ECE
             (mkMarks 18 24 12 40) 1 in
  sortByField [a; b] MC_MID = Done [b; a] /\
  getComponent b MC_MID = getComponent a MC_MID /\
  strcmp (getRoll b) (getRoll a) = 1 /\
  cmpByMarksPtrFactory b a MC_MID = 1.
Proof. intros a b. by vm_compute. Qed.

(** ** The name trie *)

Lemma flat_unfold cs ss :
  flat (mkTrieNode cs ss) = map (pair []) ss ++ flatChildren 0 cs.
Proof. reflexivity. Qed.

Lemma traverseCollect_unfold cs ss st :
  traverseCollect (mkTrieNode cs ss) st =
    (st1 ← appendStudents ss st; traverseChildren cs st1).
Proof. reflexivity. Qed.

Lemma TrieNode_ind (Pn : TrieNode -> Prop) :
  (forall cs ss,
     Forall (fun oc => match oc with Some ch => Pn ch | None => True end) cs ->
     Pn (mkTrieNode cs ss)) ->
  forall t, Pn t.
Proof.
  intros Hnode. fix IH 1. intros [cs ss]. apply Hnode.
  induction cs as [|[ch|] cs IHcs]; constructor; auto.
Qed.

Lemma keyLe_refl k : keyLe k k.
Proof.
  unfold keyLe. induction k as [|a k IH]; simpl; [done|].
  rewrite Nat.eqb_refl, IH. by rewrite orb_true_r.
Qed.

Lemma keyLe_trans k1 k2 k3 : keyLe k1 k2 -> keyLe k2 k3 -> keyLe k1 k3.
Proof.
  unfold keyLe. revert k2 k3.
  induction k1 as [|a k1 IH]; intros [|b k2] [|c k3]; simpl; try done.
  destruct (Nat.ltb_spec a b), (Nat.eqb_spec a b), (Nat.ltb_spec b c),
    (Nat.eqb_spec b c), (Nat.ltb_spec a c), (Nat.eqb_spec a c);
    simpl; try done; try lia.
  apply IH.
Qed.

Lemma keyLt_le k1 k2 : keyLt k1 k2 -> keyLe k1 k2.
Proof.
  unfold keyLt, keyLe. revert k2.
  induction k1 as [|a k1 IH]; intros [|b k2]; simpl; try done.
  destruct (Nat.ltb_spec a b), (Nat.eqb_spec a b), (Nat.ltb_spec b a),
    (Nat.eqb_spec b a); simpl; try done; try lia.
  apply IH.
Qed.

Lemma keyLe_total k1 k2 : keyLe k1 k2 \/ keyLe k2 k1.
Proof.
  destruct (keyLeb k2 k1) eqn:E; [by right|left; by apply keyLt_le].
Qed.

Lemma keyLe_antisym k1 k2 : keyLe k1 k2 -> keyLe k2 k1 -> k1 = k2.
Proof.
  unfold keyLe. revert k2.
  induction k1 as [|a k1 IH]; intros [|b k2]; simpl; try done.
  destruct (Nat.ltb_spec a b), (Nat.eqb_spec a b), (Nat.ltb_spec b a),
    (Nat.eqb_spec b a); simpl; try done; try lia.
  intros H1 H2. subst. f_equal. by apply IH.
Qed.

Lemma chIndex_lt c : (chIndex c < TRIE_ALPHABET)%nat.
Proof.
  unfold chIndex, TRIE_ALPHABET. destruct (Ascii.eqb c " "); [lia|].
  destruct (Z.leb_spec 97 (tolower c)); simpl; [|lia].
  destruct (Z.leb_spec (tolower c) 122); lia.
Qed.

Lemma flatChildren_app i l1 l2 :
  flatChildren i (l1 ++ l2) =
    flatChildren i l1 ++ flatChildren (i + length l1) l2.
Proof.
  revert i. induction l1 as [|[ch|] l1 IH]; intros i; simpl.
  - by rewrite Nat.add_0_r.
  - rewrite IH, <- app_assoc. do 3 f_equal. lia.
  - rewrite IH. do 2 f_equal. lia.
Qed.

Lemma flatChildren_heads i cs :
  Forall (fun e : entry =>
            exists c k, fst e = c :: k /\ (i <= c < i + length cs)%nat)
         (flatChildren i cs).
Proof.
  revert i. induction cs as [|[ch|] cs IH]; intros i; simpl.
  - constructor.
  - apply Forall_app. split.
    + apply Forall_forall. intros e [e' [-> _]]%list_elem_of_fmap.
      exists i, (fst e'). split; [done|lia].
    + eapply Forall_impl; [apply (IH (S i))|].
      intros e (c & k & ? & ?). exists c, k. split; [done|lia].
  - eapply Forall_impl; [apply (IH (S i))|].
    intros e (c & k & ? & ?). exists c, k. split; [done|lia].
Qed.

Lemma flatChildren_empty i n : flatChildren i (replicate n None) = [].
Proof. revert i. induction n as [|n IH]; intros i; simpl; [done|apply IH]. Qed.

Lemma flat_newTrieNode : flat newTrieNode = [].
Proof. unfold newTrieNode. rewrite flat_unfold. apply flatChildren_empty. Qed.

Lemma wfTrie_new : wfTrie newTrieNode.
Proof.
  constructor.
  - apply length_replicate.
  - intros i ch Hi. apply lookup_replicate in Hi as [? _]. done.
Qed.

Lemma keyLe_nil k : keyLe [] k.
Proof. done. Qed.

Lemma insertFrom_flat nm s t :
  wfTrie t ->
  wfTrie (insertFrom nm s t) /\
  exists l1 l2,
    flat t = l1 ++ l2 /\
    flat (insertFrom nm s t) = l1 ++ (nameKey nm, s) :: l2 /\
    Forall (fun e : entry => keyLe (fst e) (nameKey nm)) l1 /\
    Forall (fun e : entry => keyLt (nameKey nm) (fst e)) l2.
Proof.
  revert t. induction nm as [|c rest IH]; intros t Hwf.
  - destruct Hwf as [cs ss Hlen Hch]. split; [by constructor|].
    exists (map (pair []) ss), (flatChildren 0 cs).
    cbn [insertFrom nameKey]. unfold addStudent. cbn [children students].
    rewrite !flat_unfold. split_and!.
    + done.
    + by rewrite map_app, <- app_assoc.
    + apply Forall_forall. intros e [x [-> _]]%list_elem_of_fmap. done.
    + eapply Forall_impl; [apply flatChildren_heads|].
      intros e (c & k & -> & _). done.
  - destruct Hwf as [cs ss Hlen Hch].
    cbn [insertFrom children students nameKey].
    set (idx := chIndex c).
    assert (idx < length cs)%nat as Hidx by (rewrite Hlen; apply chIndex_lt).
    destruct (lookup_lt_is_Some_2 cs idx Hidx) as [oc Hoc].
    rewrite Hoc.
    set (child := match oc with Some ch => ch | None => newTrieNode end).
    assert (wfTrie child) as Hwfc.
    { subst child. destruct oc as [ch|]; [by apply (Hch idx)|apply wfTrie_new]. }
    destruct (IH child Hwfc) as (Hwf' & m1 & m2 & Hm & Hm' & Hle & Hlt).
    split.
    + constructor.
      * by rewrite length_insert.
      * intros i ch Hi. destruct (decide (i = idx)) as [->|Hne].
        -- rewrite list_lookup_insert_eq in Hi by done. by injection Hi as <-.
        -- rewrite list_lookup_insert_ne in Hi by done. by apply (Hch i).
    + assert (flatChildren 0 cs =
                flatChildren 0 (take idx cs) ++
                map (underSymbol idx) (flat child) ++
                flatChildren (S idx) (drop (S idx) cs)) as Hold.
      { rewrite <- (take_drop_middle cs idx oc Hoc) at 1.
        rewrite flatChildren_app, length_take_le by lia. f_equal.
        subst child. destruct oc as [ch|]; cbn [flatChildren]; [done|].
        by rewrite flat_newTrieNode. }
      assert (flatChildren 0 (<[idx:=Some (insertFrom rest s child)]> cs) =
                flatChildren 0 (take idx cs) ++
                map (underSymbol idx) (flat (insertFrom rest s child)) ++
                flatChildren (S idx) (drop (S idx) cs)) as Hnew.
      { rewrite insert_take_drop by done.
        rewrite flatChildren_app, length_take_le by lia. done. }
      exists (map (pair []) ss ++ flatChildren 0 (take idx cs) ++
                map (underSymbol idx) m1),
             (map (underSymbol idx) m2 ++
                flatChildren (S idx) (drop (S idx) cs)).
      rewrite !flat_unfold, Hold, Hnew, Hm, Hm'. split_and!.
      * rewrite map_app. by rewrite <- !app_assoc.
      * rewrite map_app. simpl. by rewrite <- !app_assoc.
      * rewrite !Forall_app. split_and!.
        -- apply Forall_forall. intros e [x [-> _]]%list_elem_of_fmap. done.
        -- eapply Forall_impl; [apply flatChildren_heads|].
           intros e (c' & k & -> & Hc'). rewrite length_take_le in Hc' by lia.
           unfold keyLe. simpl. destruct (Nat.ltb_spec c' idx); [done|lia].
        -- apply Forall_forall. intros e [e' [-> He']]%list_elem_of_fmap.
           rewrite Forall_forall in Hle. specialize (Hle e' He').
           unfold keyLe in *. simpl. rewrite Nat.eqb_refl, Hle.
           by rewrite orb_true_r.
      * rewrite !Forall_app. split.
        -- apply Forall_forall. intros e [e' [-> He']]%list_elem_of_fmap.
           rewrite Forall_forall in Hlt. specialize (Hlt e' He').
           unfold keyLt in *. simpl. rewrite Nat.eqb_refl, Hlt.
           by rewrite Nat.ltb_irrefl.
        -- eapply Forall_impl; [apply flatChildren_heads|].
           intros e (c' & k & -> & Hc').
           unfold keyLt. simpl.
           destruct (Nat.ltb_spec c' idx); [lia|].
           destruct (Nat.eqb_spec c' idx); [lia|done].
Qed.

Lemma filter_none {A} (Q : A -> Prop) `{!forall x, Decision (Q x)} l :
  Forall (fun x => ~ Q x) l -> filter Q l = [].
Proof.
  induction 1 as [|x l Hx _ IH]; [done|].
  by rewrite filter_cons_False.
Qed.

Lemma buildTrie_snoc arr s : buildTrie (arr ++ [s]) = insert s (buildTrie arr).
Proof. unfold buildTrie. by rewrite foldl_snoc. Qed.

Lemma buildTrie_flat arr :
  wfTrie (buildTrie arr) /\
  StronglySorted entryLe (flat (buildTrie arr)) /\
  flat (buildTrie arr) ≡ₚ tagged <$> arr /\
  (forall k, filter (fun e : entry => fst e = k) (flat (buildTrie arr)) =
             tagged <$> filter (fun s => keyOf s = k) arr).
Proof.
  induction arr as [|s arr (Hwf & Hsorted & Hperm & Hfilter)] using rev_ind.
  - split_and!.
    + apply wfTrie_new.
    + change (buildTrie []) with newTrieNode. rewrite flat_newTrieNode.
      constructor.
    + change (buildTrie []) with newTrieNode. by rewrite flat_newTrieNode.
    + intros k. change (buildTrie []) with newTrieNode.
      by rewrite flat_newTrieNode.
  - rewrite buildTrie_snoc. unfold insert.
    destruct (insertFrom_flat (getName s) s (buildTrie arr) Hwf)
      as (Hwf' & l1 & l2 & Hold & Hnew & Hle & Hlt).
    fold (keyOf s) in Hnew, Hle, Hlt. fold (tagged s) in Hnew.
    rewrite Hnew. rewrite Hold in Hsorted, Hperm, Hfilter.
    apply StronglySorted_app in Hsorted as (Hcross & Hs1 & Hs2).
    split_and!.
    + done.
    + apply StronglySorted_app. split_and!.
      * intros x1 x2 Hx1 [->|Hx2]%elem_of_cons.
        -- rewrite Forall_forall in Hle. by apply Hle.
        -- by apply Hcross.
      * done.
      * constructor; [done|].
        eapply Forall_impl; [exact Hlt|]. intros e He. by apply keyLt_le.
    + rewrite fmap_app, <- (Permutation_middle l1 l2), Hperm.
      apply Permutation_cons_append.
    + intros k. rewrite filter_app, filter_cons.
      rewrite filter_app, fmap_app.
      specialize (Hfilter k). rewrite filter_app in Hfilter.
      destruct (decide (keyOf s = k)) as [<-|Hne].
      * assert (filter (fun e : entry => fst e = keyOf s) l2 = []) as Hnil.
        { apply filter_none. eapply Forall_impl; [exact Hlt|].
          intros e He Heq. unfold keyLt in He. rewrite Heq in He.
          by rewrite (keyLe_refl (keyOf s)) in He. }
        rewrite decide_True by done.
        rewrite filter_cons_True by done. rewrite filter_nil.
        rewrite Hnil in *. rewrite app_nil_r in Hfilter.
        by rewrite Hfilter.
      * rewrite decide_False by done.
        rewrite filter_cons_False by done. rewrite filter_nil, app_nil_r.
        done.
Qed.

Lemma fill_nil out n : fill out n [] = out.
Proof. unfold fill. simpl. rewrite Nat.add_0_r. apply take_drop. Qed.

Lemma length_fill out n l :
  (n + length l <= length out)%nat -> length (fill out n l) = length out.
Proof.
  intros Hn. unfold fill.
  rewrite !length_app, length_fmap, length_take_le, length_drop by lia. lia.
Qed.

Lemma fill_fill out n l1 l2 :
  (n + length l1 + length l2 <= length out)%nat ->
  fill (fill out n l1) (n + length l1) l2 = fill out n (l1 ++ l2).
Proof.
  intros Hn. unfold fill at 1 3.
  assert (fill out n l1 =
            (take n out ++ (Some <$> l1)) ++ drop (n + length l1) out) as ->.
  { unfold fill. by rewrite <- app_assoc. }
  rewrite take_app_length'
    by (rewrite length_app, length_fmap, length_take_le; lia).
  rewrite drop_app_ge
    by (rewrite length_app, length_fmap, length_take_le; lia).
  rewrite length_app, length_fmap, length_take_le by lia.
  rewrite drop_drop, fmap_app, length_app, <- !app_assoc.
  do 4 f_equal. lia.
Qed.

Lemma appendStudents_spec ss out n :
  (n + length ss <= length out)%nat ->
  appendStudents ss (out, Z.of_nat n) =
    Done (fill out n ss, Z.of_nat (n + length ss)).
Proof.
  revert out n. induction ss as [|s ss IH]; intros out n Hn.
  - simpl. by rewrite fill_nil, Nat.add_0_r.
  - simpl in Hn. cbn [appendStudents fst snd]. unfold writeAt.
    destruct (Z.leb_spec 0 (Z.of_nat n)); [|lia].
    destruct (Z.ltb_spec (Z.of_nat n) (Z.of_nat (length out))); [|lia].
    cbn [andb mbind outcome_bind]. rewrite Nat2Z.id.
    replace (Z.of_nat n + 1) with (Z.of_nat (S n)) by lia.
    rewrite IH by (rewrite length_insert; lia).
    do 2 f_equal; [|simpl; lia].
    assert (<[n:=Some s]> out = fill out n [s]) as ->.
    { unfold fill. simpl. rewrite insert_take_drop by lia.
      do 3 f_equal. lia. }
    replace (S n) with (n + length [s])%nat by (simpl; lia).
    rewrite fill_fill by (simpl; lia). done.
Qed.

Lemma traverseChildren_spec cs :
  Forall (fun oc => match oc with
                    | Some ch =>
                        forall out n,
                          (n + length (flat ch) <= length out)%nat ->
                          traverseCollect ch (out, Z.of_nat n) =
                            Done (fill out n (snd <$> flat ch),
                                  Z.of_nat (n + length (flat ch)))
                    | None => True
                    end) cs ->
  forall i out n,
    (n + length (flatChildren i cs) <= length out)%nat ->
    traverseChildren cs (out, Z.of_nat n) =
      Done (fill out n (snd <$> flatChildren i cs),
            Z.of_nat (n + length (flatChildren i cs))).
Proof.
  induction 1 as [|[ch|] cs Hch _ IH]; intros i out n Hn.
  - simpl. by rewrite fill_nil, Nat.add_0_r.
  - cbn [flatChildren traverseChildren] in *.
    rewrite length_app, length_map in Hn.
    rewrite Hch by lia. cbn [mbind outcome_bind].
    rewrite (IH (S i)) by (rewrite length_fill; rewrite ?length_fmap; lia).
    rewrite length_app, length_map.
    replace (length (flat ch)) with (length (snd <$> flat ch))
      by apply length_fmap.
    rewrite fill_fill by (rewrite !length_fmap; lia).
    rewrite fmap_app. do 3 f_equal.
    + f_equal. rewrite <- list_fmap_compose. done.
    + rewrite length_fmap. lia.
  - cbn [flatChildren traverseChildren] in *. by apply IH.
Qed.

Lemma traverseCollect_spec t :
  forall out n,
    (n + length (flat t) <= length out)%nat ->
    traverseCollect t (out, Z.of_nat n) =
      Done (fill out n (snd <$> flat t), Z.of_nat (n + length (flat t))).
Proof.
  induction t as [cs ss IH] using TrieNode_ind. intros out n Hn.
  rewrite flat_unfold in *. rewrite length_app, length_map in Hn.
  rewrite traverseCollect_unfold, appendStudents_spec by lia.
  cbn [mbind outcome_bind].
  rewrite (traverseChildren_spec cs IH 0%nat) by (rewrite length_fill; lia).
  rewrite fill_fill by (rewrite ?length_fmap; lia).
  rewrite fmap_app, length_app, length_map. do 3 f_equal.
  - f_equal. rewrite <- list_fmap_compose. simpl.
    clear. induction ss; simpl; [done|by f_equal].
  - lia.
Qed.

Lemma tagged_entries (l : list entry) (arr : list Student) :
  l ≡ₚ tagged <$> arr -> Forall (fun e : entry => fst e = keyOf (snd e)) l.
Proof.
  intros Hperm. apply Forall_forall. intros e He.
  rewrite Hperm in He. by apply list_elem_of_fmap in He as [s [-> _]].
Qed.

Lemma entries_keys (l : list entry) :
  Forall (fun e : entry => fst e = keyOf (snd e)) l ->
  keyOf <$> (snd <$> l) = fst <$> l.
Proof.
  induction 1 as [|e l He _ IH]; [done|]. csimpl. by rewrite IH, He.
Qed.

Lemma entries_filter (l : list entry) k :
  Forall (fun e : entry => fst e = keyOf (snd e)) l ->
  filter (fun s => keyOf s = k) (snd <$> l) =
    snd <$> filter (fun e : entry => fst e = k) l.
Proof.
  induction 1 as [|e l He _ IH]; [done|]. csimpl.
  rewrite !filter_cons, IH, <- He.
  by destruct (decide (fst e = k)).
Qed.

Lemma snd_tagged (l : list Student) : snd <$> (tagged <$> l) = l.
Proof. induction l as [|s l IH]; [done|]. csimpl. by rewrite IH. Qed.

Lemma nameOrder_spec (c : list Student) :
  nameOrder c ≡ₚ c /\
  StronglySorted keyLe (keyOf <$> nameOrder c) /\
  (forall k, filter (fun s => keyOf s = k) (nameOrder c) =
             filter (fun s => keyOf s = k) c).
Proof.
  destruct (buildTrie_flat c) as (_ & Hsorted & Hperm & Hfilter).
  pose proof (tagged_entries _ _ Hperm) as Htag.
  unfold nameOrder. split_and!.
  - rewrite Hperm. by rewrite snd_tagged.
  - rewrite entries_keys by done.
    by apply (StronglySorted_fmap fst entryLe keyLe).
  - intros k. rewrite entries_filter by done.
    by rewrite Hfilter, snd_tagged.
Qed.

Lemma sortByNameUsingTrie_eq (c : Course) :
  sortByNameUsingTrie c = Done (arrayOf (nameOrder c)).
Proof.
  destruct (nameOrder_spec c) as (Hperm & _).
  pose proof (Permutation_length Hperm) as Hlen.
  unfold sortByNameUsingTrie, size, exportArray, size.
  destruct c as [|s c'].
  { apply Permutation_nil_r in Hperm. by rewrite Hperm. }
  set (c := s :: c') in *.
  destruct (Z.eqb_spec (Z.of_nat (length c)) 0) as [Hz|_]; [done|].
  change (default [] (Some c)) with c. rewrite Nat2Z.id. fold (buildTrie c).
  unfold collectSorted.
  change 0 with (Z.of_nat 0).
  unfold nameOrder in Hlen. rewrite length_fmap in Hlen.
  rewrite traverseCollect_spec by (rewrite length_replicate; lia).
  cbn [mbind outcome_bind fst]. fold (nameOrder c).
  assert (fill (replicate (length c) None) 0 (nameOrder c)
            = Some <$> nameOrder c) as ->.
  { unfold fill. rewrite take_0, app_nil_l, Nat.add_0_l.
    rewrite drop_ge; [by rewrite app_nil_r|].
    rewrite length_replicate. unfold nameOrder. rewrite length_fmap. lia. }
  destruct (nameOrder c) eqn:E; [|done].
  apply Permutation_nil_l in Hperm. done.
Qed.

Lemma sublist_reverse {A} (l1 l2 : list A) :
  l1 `sublist_of` l2 -> reverse l1 `sublist_of` reverse l2.
Proof.
  induction 1 as [|x l1 l2 _ IH|x l1 l2 _ IH].
  - done.
  - rewrite !reverse_cons. by apply sublist_app.
  - rewrite reverse_cons. by apply sublist_inserts_r.
Qed.

Lemma sublist_filter_mono {A} (Q : A -> Prop) `{!forall x, Decision (Q x)}
    (l1 l2 : list A) :
  l1 `sublist_of` l2 -> filter Q l1 `sublist_of` filter Q l2.
Proof.
  induction 1 as [|x l1 l2 _ IH|x l1 l2 _ IH].
  - done.
  - rewrite !filter_cons. destruct (decide (Q x)); [by constructor|done].
  - rewrite filter_cons. destruct (decide (Q x)); [by constructor|done].
Qed.

Lemma chIndex_letter c :
  isalpha c = true ->
  chIndex c = Z.to_nat (tolower c - 97) /\ (chIndex c < 26)%nat.
Proof.
  unfold isalpha, chIndex, tolower, isupper, islower.
  destruct (Ascii.eqb_spec c " ") as [->|_]; [by vm_compute|].
  destruct (Z.leb_spec 65 (uchar c)), (Z.leb_spec (uchar c) 90),
    (Z.leb_spec 97 (uchar c)), (Z.leb_spec (uchar c) 122);
    simpl; try done; intros _;
    repeat match goal with
           | |- context [Z.leb ?a ?b] => destruct (Z.leb_spec a b)
           end; simpl; try lia.
Qed.

Lemma chIndex_other c : isalpha c = false -> chIndex c = 26%nat.
Proof.
  unfold isalpha, chIndex, tolower, isupper, islower.
  destruct (Ascii.eqb c " "); [done|].
  destruct (Z.leb_spec 65 (uchar c)), (Z.leb_spec (uchar c) 90),
    (Z.leb_spec 97 (uchar c)), (Z.leb_spec (uchar c) 122);
    simpl; try done; intros _;
    repeat match goal with
           | |- context [Z.leb ?a ?b] => destruct (Z.leb_spec a b)
           end; simpl; try done; try lia.
Qed.

(** C4: [sortByNameUsingTrie] returns the records of the course, each once,
    with their normalized names in ascending lexicographic order of symbol
    indices; a letter has the index of its lower-case form, 0 to 25, and
    every other character, the space included, has index 26.  The three
    names of the demo come out as Amit Kumar, Rahul Verma, Sunita
    Sharma. *)
Theorem sortByName_ascending (c : Course) :
  (exists recs,
     sortByNameUsingTrie c = Done (arrayOf recs) /\
     recs ≡ₚ c /\
     StronglySorted keyLe (keyOf <$> recs)) /\
  (forall ch, isalpha ch = true ->
     chIndex ch = Z.to_nat (tolower ch - 97) /\ (chIndex ch < 26)%nat) /\
  (forall ch, isalpha ch = false -> chIndex ch = 26%nat) /\
  (let amit := mkStudent BTechStudent "Amit Kumar" "20CS1001" BR_CSE
                 (mkMarks 15 24 10 45) 0 in
   let sunita := mkStudent MTechStudent "Sunita Sharma" "21EC2001" BR_ECE
                   (mkMarks 18 28 12 40) 1 in
   let rahul := mkStudent PhDStudent "Rahul Verma" "19CS0999" BR_CSE
                  (mkMarks 20 30 15 50) 2 in
   sortByNameUsingTrie (addAll [amit; sunita; rahul]) =
     Done (Some [Some amit; Some rahul; Some sunita])).
Proof.
  split_and!.
  - exists (nameOrder c). destruct (nameOrder_spec c) as (Hperm & Hsorted & _).
    split_and!; [apply sortByNameUsingTrie_eq|done|done].
  - apply chIndex_letter.
  - apply chIndex_other.
  - by vm_compute.
Qed.

(** C2, as the code has it: two records with the same normalized name come
    out of [sortByNameUsingTrie] in the reverse of the order in which they
    were added to the course, whatever their rolls; the records of one
    normalized name are those of the course, last added first. *)
Theorem sortByName_equal_names (adds : list Student) (a b : Student) :
  keyOf a = keyOf b ->
  before a b adds ->
  exists recs,
    sortByNameUsingTrie (addAll adds) = Done (arrayOf recs) /\
    before b a recs /\
    filter (fun s => keyOf s = keyOf a) recs =
      reverse (filter (fun s => keyOf s = keyOf a) adds).
Proof.
  intros Hkey Hbefore. exists (nameOrder (addAll adds)).
  destruct (nameOrder_spec (addAll adds)) as (_ & _ & Hfilter).
  specialize (Hfilter (keyOf a)).
  rewrite addAll_reverse, filter_reverse in Hfilter.
  rewrite addAll_reverse in *.
  split_and!; [apply sortByNameUsingTrie_eq| |done].
  unfold before in *.
  transitivity (filter (fun s => keyOf s = keyOf a) (nameOrder (reverse adds))).
  - rewrite Hfilter, <- filter_reverse.
    apply sublist_reverse in Hbefore.
    apply (sublist_filter_mono (fun s => keyOf s = keyOf a)) in Hbefore.
    change (reverse [a; b]) with [b; a] in Hbefore.
    rewrite filter_cons_True in Hbefore by done.
    rewrite filter_cons_True in Hbefore by done.
    by rewrite filter_nil in Hbefore.
  - apply sublist_filter.
Qed.

Lemma sortByName_equal_names_witness :
  let a := mkStudent BTechStudent "Amit Kumar" "20CS1001" BR_CSE Marks0 0 in
  let b := mkStudent MTechStudent "Amit Kumar" "21EC2001" BR_ECE Marks0 1 in
  exists recs,
    sortByNameUsingTrie (addAll [a; b]) = Done (arrayOf recs) /\
    before b a recs /\
    filter (fun s => keyOf s = keyOf a) recs =
      reverse (filter (fun s => keyOf s = keyOf a) [a; b]).
Proof.
  intros a b. apply (sortByName_equal_names [a; b] a b).
  - reflexivity.
  - unfold before. reflexivity.
Defined.

(** C2, as stated, fails on two records with one name: the record added
    first comes out last. *)
Lemma sortByName_equal_names_not_insertion_order :
  let a := mkStudent BTechStudent "Amit Kumar" "20CS1001" BR_CSE Marks0 0 in
  let b := mkStudent MTechStudent "Amit Kumar" "21EC2001" BR_ECE Marks0 1 in
  keyOf a = keyOf b /\
  before a b [a; b] /\
  sortByNameUsingTrie (addAll [a; b]) = Done (arrayOf [b; a]) /\
  ~ before a b [b; a].
Proof.
  intros a b. split_and!.
  - reflexivity.
  - unfold before. reflexivity.
  - by vm_compute.
  - unfold before. intros H.
    apply sublist_cons_l in H as (k1 & k2 & Heq & Hsub).
    destruct k1 as [|x [|y k1]]; simplify_eq/=.
    + by apply sublist_nil_r in Hsub.
    + by destruct k1.
Qed.

(** * Further properties of the code *)

(** ** Setters, all outcomes *)

Lemma nameLoop1_cases s st :
  (exists st', nameLoop1 s st = Ok st' /\ allChars isValidNameChar s = true) \/
  nameLoop1 s st = Throw InvalidSecondNameException.
Proof.
  destruct (allChars isValidNameChar s) eqn:Hall.
  - left. destruct (nameLoop1_words s st Hall) as (st' & -> & _).
    by exists st'.
  - right. by apply nameLoop1_invalid.
Qed.

(** The validators return or throw their own exceptions, at every
    length. *)
Lemma validateName_cases nm :
  validateName nm = Ok tt \/
  validateName nm = Throw NoSecondNameException \/
  validateName nm = Throw InvalidSecondNameException.
Proof.
  destruct nm as [s|]; [|by right; left]. unfold validateName. cbv zeta.
  destruct (strlen s =? 0); [by right; left|].
  destruct (nameLoop1_cases (visited (toInt (strlen s)) s)
              (mkWordScan 0 false)) as [(st & -> & Hall)| ->];
    [|by right; right].
  cbn [mbind result_bind]. destruct (words st <? 2); [by right; left|].
  left. by apply nameLoop2_valid.
Qed.

Lemma validateRoll_cases r :
  validateRoll r = Ok tt \/ validateRoll r = Throw InvalidRollException.
Proof.
  destruct r as [s|]; [|by right]. unfold validateRoll.
  destruct (strlen s =? 0); [by right|].
  rewrite rollLoop_allChars.
  destruct (allChars isValidRollChar _); [by left|by right].
Qed.

Ltac outcome_cases :=
  repeat match goal with
         | |- _ /\ _ => split
         | |- _ <-> _ => split
         | |- _ -> _ => intros ?
         | |- _ <> _ => intros ?
         | H : _ /\ _ |- _ => destruct H
         end;
  try reflexivity; try congruence; try lia.

(** [setName] returns exactly when the name passes [validateName] and is
    shorter than the buffer; the object then carries the new name and
    nothing else changed.  A name that passes and whose [int] length is 64
    or more throws [BufferOverflowException]; for a name of fewer than 2^31
    bytes that is a length of 64 or more, and such a name never overruns
    the buffer.  The buffer is overrun exactly by a name that passes, is 64
    bytes or more long and has an [int] length below 64.  The null pointer
    is rejected by the validator. *)
Theorem setName_outcome (nm : string) (s : Student) :
  (snd (setName (Some nm) s) = Ok tt <->
     validateName (Some nm) = Ok tt /\ strlen nm < NAME_MAX) /\
  (snd (setName (Some nm) s) = Ok tt ->
     fst (setName (Some nm) s) =
       mkStudent (cls s) nm (roll s) (branch s) (marks s) (level s)) /\
  (snd (setName (Some nm) s) = Throw BufferOverflowException <->
     validateName (Some nm) = Ok tt /\ NAME_MAX <= toInt (strlen nm)) /\
  (snd (setName (Some nm) s) = Overrun <->
     validateName (Some nm) = Ok tt /\
     toInt (strlen nm) < NAME_MAX <= strlen nm) /\
  (strlen nm < 2147483648 ->
     snd (setName (Some nm) s) <> Overrun /\
     (snd (setName (Some nm) s) = Throw BufferOverflowException <->
        validateName (Some nm) = Ok tt /\ NAME_MAX <= strlen nm)) /\
  setName None s = (s, Throw NoSecondNameException).
Proof.
  assert (0 <= strlen nm) as Hpos by (unfold strlen; lia).
  pose proof (toInt_le (strlen nm) Hpos) as Hle.
  pose proof (toInt_small (strlen nm)) as Hsmall.
  unfold setName, safeStrCpy, strcpy.
  change (default EmptyString (Some nm)) with nm. cbv zeta.
  destruct (validateName_cases (Some nm)) as [Hv|[Hv|Hv]]; rewrite Hv;
    cbn [fst snd].
  2,3: outcome_cases.
  unfold NAME_MAX in *.
  destruct (Z.leb_spec 64 (toInt (strlen nm))) as [H1|H1];
    [|destruct (Z.ltb_spec (strlen nm) 64) as [H2|H2]]; cbn [fst snd];
    outcome_cases.
Qed.

(** [setRoll] returns exactly when the roll passes [validateRoll] and is
    shorter than the buffer; the object then carries the new roll and
    nothing else changed.  A roll that passes and whose [int] length is 32
    or more throws [BufferOverflowException]; for a roll of fewer than 2^31
    bytes that is a length of 32 or more, and such a roll never overruns
    the buffer.  The buffer is overrun exactly by a roll that passes, is 32
    bytes or more long and has an [int] length below 32, as every roll of
    exactly 2^31 bytes does. *)
Theorem setRoll_outcome (r : string) (s : Student) :
  (snd (setRoll (Some r) s) = Ok tt <->
     validateRoll (Some r) = Ok tt /\ strlen r < ROLL_MAX) /\
  (snd (setRoll (Some r) s) = Ok tt ->
     fst (setRoll (Some r) s) =
       mkStudent (cls s) (name s) r (branch s) (marks s) (level s)) /\
  (snd (setRoll (Some r) s) = Throw BufferOverflowException <->
     validateRoll (Some r) = Ok tt /\ ROLL_MAX <= toInt (strlen r)) /\
  (snd (setRoll (Some r) s) = Overrun <->
     validateRoll (Some r) = Ok tt /\
     toInt (strlen r) < ROLL_MAX <= strlen r) /\
  (strlen r < 2147483648 ->
     snd (setRoll (Some r) s) <> Overrun /\
     (snd (setRoll (Some r) s) = Throw BufferOverflowException <->
        validateRoll (Some r) = Ok tt /\ ROLL_MAX <= strlen r)) /\
  (strlen r = 2147483648 -> snd (setRoll (Some r) s) = Overrun) /\
  setRoll None s = (s, Throw InvalidRollException).
Proof.
  assert (0 <= strlen r) as Hpos by (unfold strlen; lia).
  pose proof (toInt_le (strlen r) Hpos) as Hle.
  pose proof (toInt_small (strlen r)) as Hsmall.
  assert (strlen r = 2147483648 ->
          validateRoll (Some r) = Ok tt /\ toInt (strlen r) = -2147483648)
    as Hwrap.
  { intros Hr. split; [by apply validate_at_wrap|]. by rewrite Hr. }
  unfold setRoll, safeStrCpy, strcpy.
  change (default EmptyString (Some r)) with r. cbv zeta.
  destruct (validateRoll_cases (Some r)) as [Hv|Hv]; rewrite Hv;
    cbn [fst snd].
  2: { outcome_cases. destruct Hwrap; congruence. }
  unfold ROLL_MAX in *.
  destruct (Z.leb_spec 32 (toInt (strlen r))) as [H1|H1];
    [|destruct (Z.ltb_spec (strlen r) 32) as [H2|H2]]; cbn [fst snd];
    outcome_cases; destruct Hwrap; lia.
Qed.

Lemma setName_state nm s :
  (forall n, nm = Some n -> strlen n < 2147483648) ->
  fst (setName nm s) = s \/
  exists n, validateName (Some n) = Ok tt /\ strlen n < NAME_MAX /\
            fst (setName nm s) = withName s n.
Proof.
  intros Hfit. unfold setName, safeStrCpy, strcpy.
  destruct nm as [n|]; [|by left].
  change (default EmptyString (Some n)) with n. cbv zeta.
  rewrite toInt_small by (specialize (Hfit n eq_refl); unfold strlen in *; lia).
  destruct (validateName_cases (Some n)) as [Hv|[->| ->]]; [|by left..].
  rewrite Hv. destruct (Z.leb_spec NAME_MAX (strlen n)); cbn [fst].
  - left. by destruct s.
  - destruct (Z.ltb_spec (strlen n) NAME_MAX); [|lia]. right. by exists n.
Qed.

Lemma setRoll_state r s :
  (forall n, r = Some n -> strlen n < 2147483648) ->
  fst (setRoll r s) = s \/
  exists n, validateRoll (Some n) = Ok tt /\ strlen n < ROLL_MAX /\
            fst (setRoll r s) = withRoll s n.
Proof.
  intros Hfit. unfold setRoll, safeStrCpy, strcpy.
  destruct r as [n|]; [|by left].
  change (default EmptyString (Some n)) with n. cbv zeta.
  rewrite toInt_small by (specialize (Hfit n eq_refl); unfold strlen in *; lia).
  destruct (validateRoll_cases (Some n)) as [Hv| ->]; [|by left].
  rewrite Hv. destruct (Z.leb_spec ROLL_MAX (strlen n)); cbn [fst].
  - left. by destruct s.
  - destruct (Z.ltb_spec (strlen n) ROLL_MAX); [|lia]. right. by exists n.
Qed.

Lemma storedOk_doCall call s :
  callFits call -> storedOk s -> storedOk (doCall call s).
Proof.
  intros Hfit (Hn & Hnl & Hr & Hrl).
  destruct call as [nm|r|b|lv|m]; cbn [doCall]; try done.
  - destruct (setName_state nm s) as [->|(n & Hv & Hlen & ->)]; [|done|].
    { intros n ->. exact Hfit. }
    split_and!; cbn [withName name roll]; auto.
  - destruct (setRoll_state r s) as [->|(n & Hv & Hlen & ->)]; [|done|].
    { intros n ->. exact Hfit. }
    split_and!; cbn [withRoll name roll]; auto.
Qed.

Lemma cls_doCall call s : cls (doCall call s) = cls s.
Proof.
  destruct call as [nm|r|b|lv|m]; cbn [doCall]; try done.
  - unfold setName, safeStrCpy, strcpy. destruct (validateName nm); [|done..].
    destruct (NAME_MAX <=? _); [done|]. by destruct (_ <? NAME_MAX).
  - unfold setRoll, safeStrCpy, strcpy. destruct (validateRoll r); [|done..].
    destruct (ROLL_MAX <=? _); [done|]. by destruct (_ <? ROLL_MAX).
Qed.

(** Whatever sequence of setter calls, each with a string of fewer than
    2^31 bytes or the null pointer, an object has been through since its
    constructor, its name buffer holds the empty string or a validated
    name, its roll buffer the empty string or a validated roll, both within
    the capacity of their buffers, and its dynamic class is the one it was
    created with. *)
Theorem student_buffers_valid (k : StudentClass) (calls : list StudentCall) :
  Forall callFits calls ->
  storedOk (doCalls calls (newStudent k)) /\
  cls (doCalls calls (newStudent k)) = k.
Proof.
  intros Hfit.
  assert (storedOk (newStudent k)) as Hinit.
  { destruct k; split_and!; by (left || vm_compute). }
  assert (cls (newStudent k) = k) as Hcls by done.
  revert Hinit Hcls. generalize (newStudent k). unfold doCalls.
  induction Hfit as [|call calls Hcall _ IH]; intros s Hs Hk; [done|].
  cbn [foldl]. apply IH.
  - by apply storedOk_doCall.
  - by rewrite cls_doCall.
Qed.

Lemma student_buffers_valid_witness :
  let calls := [CallSetName (Some "Maya Rao"); CallSetRoll (Some "20CS#1003");
                CallSetMarks Marks0; CallSetRoll (Some "20CS1003")] in
  storedOk (doCalls calls (newStudent BTechStudent)) /\
  cls (doCalls calls (newStudent BTechStudent)) = BTechStudent.
Proof.
  intros calls. apply (student_buffers_valid BTechStudent calls).
  repeat constructor; vm_compute; reflexivity.
Defined.

(** ** Course: lookup and removal *)

Lemma findByRoll_first c key s :
  findByRoll c key = Some s ->
  exists l1 l2,
    c = l1 ++ s :: l2 /\ getRoll s = key /\
    forall x, x ∈ l1 -> getRoll x <> key.
Proof.
  induction c as [|x c IH]; cbn [findByRoll]; [done|].
  destruct (Z.eqb_spec (strcmp (getRoll x) key) 0) as [E|E].
  - intros [= ->]. exists [], c. split_and!; [done|by apply strcmp_eq|].
    intros y Hy. by apply elem_of_nil in Hy.
  - intros Hf. destruct (IH Hf) as (l1 & l2 & -> & Hs & Hno).
    exists (x :: l1), l2. split_and!; [done|done|].
    intros y [->|Hy]%elem_of_cons; [|by apply Hno].
    intros Heq. apply E. by apply strcmp_eq.
Qed.

Lemma findByRoll_None c key :
  findByRoll c key = None <-> forall x, x ∈ c -> getRoll x <> key.
Proof.
  induction c as [|x c IH]; cbn [findByRoll].
  - split; [|done]. intros _ y Hy. by apply elem_of_nil in Hy.
  - destruct (Z.eqb_spec (strcmp (getRoll x) key) 0) as [E|E].
    + split; [done|]. intros Hno. destruct (Hno x); [by left|].
      by apply strcmp_eq.
    + rewrite IH. split.
      * intros Hno y [->|Hy]%elem_of_cons; [|by apply Hno].
        intros Heq. apply E. by apply strcmp_eq.
      * intros Hno y Hy. apply Hno. by right.
Qed.

(** [findByRoll] returns the first record of the chain with the given roll,
    and the null pointer exactly when no record has it; [operator()] throws
    [RollNotFoundException], and nothing else, exactly in that case. *)
Theorem findByRoll_spec (c : Course) (key : string) :
  (forall s, findByRoll c key = Some s ->
     exists l1 l2,
       c = l1 ++ s :: l2 /\ getRoll s = key /\
       forall x, x ∈ l1 -> getRoll x <> key) /\
  (findByRoll c key = None <-> forall x, x ∈ c -> getRoll x <> key) /\
  (Course_call c key = Throw RollNotFoundException <->
     forall x, x ∈ c -> getRoll x <> key) /\
  (forall e, Course_call c key = Throw e -> e = RollNotFoundException) /\
  (forall s, Course_call c key = Ok s <-> findByRoll c key = Some s).
Proof.
  split_and!.
  - intros s. apply findByRoll_first.
  - apply findByRoll_None.
  - rewrite <- findByRoll_None. unfold Course_call.
    by destruct (findByRoll c key).
  - intros e. unfold Course_call. destruct (findByRoll c key); [done|].
    by intros [= <-].
  - intros s. unfold Course_call. destruct (findByRoll c key); [|done].
    split; by intros [= ->].
Qed.

(** Removing a roll that no record carries reports [false] and leaves the
    chain, and so the size, as it was; [false] is reported in no other
    case. *)
Theorem removeByRoll_missing (c : Course) (key : string) :
  (snd (removeByRoll c key) = false <-> findByRoll c key = None) /\
  (findByRoll c key = None -> removeByRoll c key = (c, false)).
Proof.
  induction c as [|x c [IH1 IH2]]; cbn [removeByRoll findByRoll]; [done|].
  destruct (strcmp (getRoll x) key =? 0); [done|].
  destruct (removeByRoll c key) as [c' found] eqn:E. cbn [snd] in *.
  split; [done|]. intros Hn. specialize (IH2 Hn). by injection IH2 as -> ->.
Qed.

(** Removing a roll that some record carries unlinks exactly the record
    that [findByRoll] returns for it, the first one in the chain, keeps all
    the others in their order, reports [true] and makes the size one
    less. *)
Theorem removeByRoll_first_match (c : Course) (key : string) (s : Student) :
  findByRoll c key = Some s ->
  exists l1 l2,
    c = l1 ++ s :: l2 /\
    (forall x, x ∈ l1 -> getRoll x <> key) /\
    removeByRoll c key = (l1 ++ l2, true) /\
    size (fst (removeByRoll c key)) = size c - 1.
Proof.
  induction c as [|x c IH]; cbn [removeByRoll findByRoll]; [done|].
  destruct (Z.eqb_spec (strcmp (getRoll x) key) 0) as [E|E].
  - intros [= ->]. exists [], c. split_and!; try done.
    + intros y Hy. by apply elem_of_nil in Hy.
    + cbn [fst]. unfold size. simpl. lia.
  - intros Hf. destruct (IH Hf) as (l1 & l2 & -> & Hno & Hrm & Hsz).
    rewrite Hrm in *. cbn [fst] in *.
    exists (x :: l1), l2. split_and!; try done.
    + intros y [->|Hy]%elem_of_cons; [|by apply Hno].
      intros Heq. apply E. by apply strcmp_eq.
    + unfold size in *. simpl. rewrite !length_app in *. simpl in *. lia.
Qed.

Lemma removeByRoll_first_match_witness :
  let a := mkStudent BTechStudent "Amit Kumar" "20CS1001" BR_CSE Marks0 0 in
  let b := mkStudent MTechStudent "Sunita Sharma" "21EC2001" BR_ECE Marks0 1 in
  exists l1 l2,
    [a; b] = l1 ++ b :: l2 /\
    (forall x, x ∈ l1 -> getRoll x <> "21EC2001") /\
    removeByRoll [a; b] "21EC2001" = (l1 ++ l2, true) /\
    size (fst (removeByRoll [a; b] "21EC2001")) = size [a; b] - 1.
Proof.
  intros a b. apply (removeByRoll_first_match [a; b] "21EC2001" b).
  reflexivity.
Defined.

(** After a removal the lookups of every other roll are as before; and in a
    course whose rolls are pairwise distinct the removed roll is no longer
    found. *)
Theorem find_after_remove (c : Course) (key other : string) :
  (other <> key ->
     findByRoll (fst (removeByRoll c key)) other = findByRoll c other) /\
  (NoDup (getRoll <$> c) ->
     findByRoll (fst (removeByRoll c key)) key = None).
Proof.
  split.
  - intros Hne. induction c as [|x c IH]; cbn [removeByRoll findByRoll];
      [done|].
    destruct (Z.eqb_spec (strcmp (getRoll x) key) 0) as [E|E].
    + cbn [fst]. apply strcmp_eq in E.
      destruct (Z.eqb_spec (strcmp (getRoll x) other) 0) as [E'|_]; [|done].
      apply strcmp_eq in E'. congruence.
    + destruct (removeByRoll c key) as [c' found]. cbn [fst findByRoll] in *.
      by rewrite IH.
  - induction c as [|x c IH]; cbn [removeByRoll findByRoll]; [done|].
    rewrite fmap_cons. intros [Hnotin Hnd]%NoDup_cons.
    destruct (Z.eqb_spec (strcmp (getRoll x) key) 0) as [E|E].
    + cbn [fst]. apply strcmp_eq in E. apply findByRoll_None.
      intros y Hy Hroll. apply Hnotin. rewrite E, <- Hroll.
      by apply list_elem_of_fmap_2.
    + destruct (removeByRoll c key) as [c' found]. cbn [fst findByRoll] in *.
      destruct (Z.eqb_spec (strcmp (getRoll x) key) 0); [done|]. by apply IH.
Qed.

(** The exported snapshot lists the records most recently added first; the
    null pointer is returned exactly for a course without records, and the
    size of a course is the number of [+=] that built it. *)
Theorem exportArray_addAll (adds : list Student) :
  exportArray (addAll adds) =
    match adds with [] => None | _ => Some (reverse adds) end /\
  size (addAll adds) = Z.of_nat (length adds).
Proof.
  rewrite addAll_reverse. unfold exportArray, size.
  rewrite length_reverse. split; [|done].
  destruct adds as [|s adds]; [done|].
  destruct (Z.eqb_spec (Z.of_nat (length (s :: adds))) 0) as [E|_]; [|done].
  simpl in E. lia.
Qed.

(** ** Writing through the reference that [operator()] returns *)

Lemma deref_cons h p c :
  deref h (p :: c) = (s ← h !! p; vals ← deref h c; Some (s :: vals)).
Proof. reflexivity. Qed.

Lemma setMarksAt_lookup p m h q :
  setMarksAt p m h !! q =
    if decide (p = q) then setMarks m <$> h !! q else h !! q.
Proof.
  unfold setMarksAt. rewrite list_lookup_alter.
  by destruct (decide (p = q)) as [->|Hne].
Qed.

Lemma deref_setMarksAt h c vals p m :
  deref h c = Some vals ->
  exists vals',
    deref (setMarksAt p m h) c = Some vals' /\
    getRoll <$> vals' = getRoll <$> vals.
Proof.
  revert vals. induction c as [|q c IH]; intros vals.
  - intros [= <-]. by exists [].
  - rewrite !deref_cons. destruct (h !! q) as [s|] eqn:Hq; [|done].
    cbn [mbind option_bind]. destruct (deref h c) as [vals0|]; [|done].
    intros [= <-]. destruct (IH vals0 eq_refl) as (vals0' & -> & Hrolls).
    rewrite setMarksAt_lookup, Hq.
    destruct (decide (p = q)); cbn [fmap option_fmap option_map mbind option_bind].
    + eexists. split; [done|]. rewrite !fmap_cons. by rewrite Hrolls.
    + eexists. split; [done|]. rewrite !fmap_cons. by rewrite Hrolls.
Qed.

Lemma findByRollPtr_deref h c vals key :
  deref h c = Some vals ->
  findByRoll vals key = (p ← findByRollPtr h c key; h !! p).
Proof.
  revert vals. induction c as [|q c IH]; intros vals.
  - by intros [= <-].
  - rewrite deref_cons. cbn [findByRollPtr].
    destruct (h !! q) as [s|] eqn:Hq; [|done].
    cbn [mbind option_bind]. destruct (deref h c) as [vals0|]; [|done].
    intros [= <-]. cbn [findByRoll].
    destruct (strcmp (getRoll s) key =? 0); [|by apply IH].
    cbn [mbind option_bind]. by rewrite Hq.
Qed.

(** The pointer that [operator()] returns is the one a later lookup of the
    same roll returns, and a [setMarks] through it is what that lookup
    sees: after the write the record found for the roll is the old one with
    the new marks, every other object is untouched, and the chain still
    holds the same rolls in the same order. *)
Theorem write_through_reference (h : heap) (c : ptrCourse) (vals : Course)
    (key : string) (p : nat) (m : Marks) :
  deref h c = Some vals ->
  Course_callPtr h c key = Ok p ->
  exists s vals',
    h !! p = Some s /\
    findByRoll vals key = Some s /\
    Course_callPtr (setMarksAt p m h) c key = Ok p /\
    setMarksAt p m h !! p = Some (setMarks m s) /\
    (forall q, q <> p -> setMarksAt p m h !! q = h !! q) /\
    deref (setMarksAt p m h) c = Some vals' /\
    findByRoll vals' key = Some (setMarks m s) /\
    getRoll <$> vals' = getRoll <$> vals.
Proof.
  intros Hd Hcall.
  assert (findByRollPtr h c key = Some p) as Hfind.
  { unfold Course_callPtr in Hcall.
    destruct (findByRollPtr h c key); by simplify_eq. }
  clear Hcall.
  assert (findByRollPtr (setMarksAt p m h) c key = Some p /\
          is_Some (h !! p)) as [Hfind' [s Hs]].
  { clear Hd vals. induction c as [|q c IH]; [done|].
    cbn [findByRollPtr] in *. rewrite setMarksAt_lookup.
    destruct (h !! q) as [s|] eqn:Hq; [|done].
    destruct (strcmp (getRoll s) key =? 0) eqn:E.
    - injection Hfind as <-. rewrite decide_True by done.
      cbn [fmap option_fmap option_map].
      change (getRoll (setMarks m s)) with (getRoll s).
      rewrite E, Hq. split; [done|by exists s].
    - destruct (IH Hfind) as [IH1 IH2]. split; [|done].
      destruct (decide (p = q)); cbn [fmap option_fmap option_map];
        [change (getRoll (setMarks m s)) with (getRoll s)|];
        by rewrite E. }
  destruct (deref_setMarksAt h c vals p m Hd) as (vals' & Hd' & Hrolls).
  exists s, vals'. split_and!; try done.
  - rewrite (findByRollPtr_deref h c vals key Hd), Hfind. done.
  - unfold Course_callPtr. by rewrite Hfind'.
  - rewrite setMarksAt_lookup, decide_True by done. by rewrite Hs.
  - intros q Hq. rewrite setMarksAt_lookup. by rewrite decide_False.
  - rewrite (findByRollPtr_deref _ c vals' key Hd'), Hfind'.
    cbn [mbind option_bind].
    rewrite setMarksAt_lookup, decide_True by done. by rewrite Hs.
Qed.

Lemma write_through_reference_witness :
  let a := mkStudent BTechStudent "Amit Kumar" "20CS1001" BR_CSE Marks0 0 in
  let b := mkStudent MTechStudent "Sunita Sharma" "21EC2001" BR_ECE Marks0 1 in
  let m := mkMarks 18 28 12 (DFinite (85 # 2)) in
  exists s vals',
    [a; b] !! 1%nat = Some s /\
    findByRoll [b; a] "21EC2001" = Some s /\
    Course_callPtr (setMarksAt 1 m [a; b]) [1%nat; 0%nat] "21EC2001" = Ok 1%nat /\
    setMarksAt 1 m [a; b] !! 1%nat = Some (setMarks m s) /\
    (forall q, q <> 1%nat -> setMarksAt 1 m [a; b] !! q = [a; b] !! q) /\
    deref (setMarksAt 1 m [a; b]) [1%nat; 0%nat] = Some vals' /\
    findByRoll vals' "21EC2001" = Some (setMarks m s) /\
    getRoll <$> vals' = getRoll <$> [b; a].
Proof.
  intros a b m.
  apply (write_through_reference [a; b] [1%nat; 0%nat] [b; a] "21EC2001"
           1%nat m); reflexivity.
Defined.

(** ** The comparators *)

Lemma Qltb_lt x y : Qltb x y = true <-> (x < y)%Q.
Proof.
  unfold Qltb. rewrite negb_true_iff. split.
  - intros Hf. apply Qnot_le_lt. intros Hle.
    apply Qle_bool_iff in Hle. congruence.
  - intros Hlt. destruct (Qle_bool y x) eqn:E; [|done].
    apply Qle_bool_iff in E. lra.
Qed.

Lemma Qltb_ge x y : Qltb x y = false <-> (y <= x)%Q.
Proof. unfold Qltb. rewrite negb_false_iff. apply Qle_bool_iff. Qed.

Lemma dlt_asym x y : dlt x y = true -> dlt y x = false.
Proof.
  destruct x as [|p| |], y as [|q| |]; cbn [dlt]; try done.
  rewrite Qltb_lt, Qltb_ge. lra.
Qed.

Lemma dlt_trans x y z : dlt x y = true -> dlt y z = true -> dlt x z = true.
Proof.
  destruct x as [|p| |], y as [|q| |], z as [|r| |]; cbn [dlt]; try done.
  rewrite !Qltb_lt. lra.
Qed.

Lemma dlt_negtrans x y z :
  x <> DNaN -> y <> DNaN -> z <> DNaN ->
  dlt x y = false -> dlt y z = false -> dlt x z = false.
Proof.
  destruct x as [|p| |], y as [|q| |], z as [|r| |]; cbn [dlt]; try done.
  rewrite !Qltb_ge. lra.
Qed.

(** The signs of the two comparators.  [cmpByRollPtr] is zero exactly on
    equal rolls, negative exactly when the swapped call is positive, and
    its "not greater" is transitive.  [cmpByMarksPtrFactory] is negative
    exactly when the first mark is smaller, or neither mark is smaller than
    the other and the first roll is smaller; zero exactly when neither mark
    is smaller and the rolls are equal; negative exactly when the swapped
    call is positive; and its "not greater" is transitive on records whose
    marks are numbers.  A NaN mark is smaller than nothing and nothing is
    smaller than it, so the rolls alone decide. *)
Theorem comparators_order (a b c : Student) (mc : MarkComponent) :
  (cmpByRollPtr a b = 0 <-> getRoll a = getRoll b) /\
  (cmpByRollPtr a b < 0 <-> 0 < cmpByRollPtr b a) /\
  (cmpByRollPtr a b <= 0 -> cmpByRollPtr b c <= 0 -> cmpByRollPtr a c <= 0) /\
  (cmpByMarksPtrFactory a b mc < 0 <->
     dlt (getComponent a mc) (getComponent b mc) = true \/
     (dlt (getComponent a mc) (getComponent b mc) = false /\
      dlt (getComponent b mc) (getComponent a mc) = false /\
      strcmp (getRoll a) (getRoll b) < 0)) /\
  (cmpByMarksPtrFactory a b mc = 0 <->
     dlt (getComponent a mc) (getComponent b mc) = false /\
     dlt (getComponent b mc) (getComponent a mc) = false /\
     getRoll a = getRoll b) /\
  (cmpByMarksPtrFactory a b mc < 0 <-> 0 < cmpByMarksPtrFactory b a mc) /\
  (numeric mc a -> numeric mc b -> numeric mc c ->
   cmpByMarksPtrFactory a b mc <= 0 -> cmpByMarksPtrFactory b c mc <= 0 ->
   cmpByMarksPtrFactory a c mc <= 0).
Proof.
  unfold cmpByMarksPtrFactory, cmpByRollPtr, numeric. cbv zeta.
  pose proof (strcmp_antisym (getRoll a) (getRoll b)) as Hanti.
  pose proof (strcmp_eq (getRoll a) (getRoll b)) as Heq.
  pose proof (strcmp_le_trans (getRoll a) (getRoll b) (getRoll c)) as Htr.
  set (x := getComponent a mc) in *.
  set (y := getComponent b mc) in *.
  set (z := getComponent c mc) in *.
  pose proof (dlt_asym x y) as Hxy.
  split_and!; [done|lia|done| | | |].
  - destruct (dlt x y) eqn:E1.
    { split; [by left|lia]. }
    destruct (dlt y x) eqn:E2.
    { split; [lia|]. by intros [?|(_ & ? & _)]. }
    split; [by right|]. by intros [?|(_ & _ & ?)].
  - destruct (dlt x y) eqn:E1.
    { split; [done|]. by intros [? _]. }
    destruct (dlt y x) eqn:E2.
    { split; [done|]. by intros (_ & ? & _). }
    rewrite Heq. split; [done|]. by intros (_ & _ & ?).
  - destruct (dlt x y) eqn:E1.
    { rewrite (Hxy eq_refl). lia. }
    destruct (dlt y x) eqn:E2; lia.
  - intros Hx Hy Hz.
    pose proof (dlt_trans x y z) as T1.
    pose proof (dlt_negtrans x z y Hx Hz Hy) as T2.
    pose proof (dlt_negtrans y x z Hy Hx Hz) as T3.
    pose proof (dlt_negtrans x y z Hx Hy Hz) as T4.
    pose proof (dlt_negtrans z y x Hz Hy Hx) as T5.
    pose proof (dlt_asym x z) as T6.
    destruct (dlt x y), (dlt y x), (dlt y z), (dlt z y), (dlt x z), (dlt z x);
      intros H1 H2; try lia;
      try (by specialize (T1 eq_refl eq_refl));
      try (by specialize (T2 eq_refl eq_refl));
      try (by specialize (T3 eq_refl eq_refl));
      try (by specialize (T4 eq_refl eq_refl));
      try (by specialize (T5 eq_refl eq_refl));
      try (by specialize (T6 eq_refl));
      try (by specialize (Hxy eq_refl)).
Qed.

(** ** Sorting a range of the array *)

(** [quickSortRoll(arr, lo, hi)] and [quickSortMarks(arr, lo, hi, mc)] on an
    in-bounds range touch nothing but the cells [lo .. hi]: the array keeps
    its length and its records, and every cell outside the range keeps its
    record.  [quickSortRoll] leaves the range in order of roll;
    [quickSortMarks] leaves it in order of the mark when no mark of that
    component in the array is a NaN.  With [hi <= lo] the array is returned
    as it is, whatever the indices. *)
Theorem quickSort_range (arr : list Student) (lo hi : Z) (mc : MarkComponent)
    (fuel : nat) :
  (lo < hi -> 0 <= lo /\ hi < Z.of_nat (length arr)) ->
  (sortFuel (Z.to_nat (hi - lo + 1)) <= fuel)%nat ->
  (exists out,
     quickSortRoll fuel arr lo hi = Done out /\
     length out = length arr /\ out ≡ₚ arr /\
     (forall m, m < lo \/ hi < m -> getZ out m = getZ arr m) /\
     sortedRange rollLe out lo hi /\
     (hi <= lo -> out = arr)) /\
  (exists out,
     quickSortMarks fuel arr lo hi mc = Done out /\
     length out = length arr /\ out ≡ₚ arr /\
     (forall m, m < lo \/ hi < m -> getZ out m = getZ arr m) /\
     (Forall (numeric mc) arr -> sortedRange (markLe mc) out lo hi) /\
     (hi <= lo -> out = arr)).
Proof.
  intros Hin Hfuel. unfold sortFuel in Hfuel.
  assert (2 * Z.max 0 (hi - lo + 1) + 2 <= Z.of_nat fuel) as Hf by lia.
  assert (exists f, fuel = S f) as [f ->] by (exists (Nat.pred fuel); lia).
  split.
  - destruct (quickSortRoll_spec (S f) arr lo hi Hin Hf)
      as (out & Hrun & (Hlen & Hperm & Hout & _) & Hsorted).
    exists out. split_and!; try done.
    intros Hle. unfold quickSortRoll in Hrun. cbn [quickSort] in Hrun.
    destruct (Z.leb_spec hi lo); [|lia]. by injection Hrun as <-.
  - destruct (quickSortMarks_safe (S f) arr lo hi mc Hin Hf)
      as (out & Hrun & (Hlen & Hperm & Hout & _)).
    exists out. split_and!; try done.
    + intros Hnum.
      destruct (quickSortMarks_spec (S f) arr lo hi mc Hin Hf Hnum)
        as (out2 & Hrun2 & _ & _ & Hsorted).
      rewrite Hrun in Hrun2. by injection Hrun2 as <-.
    + intros Hle. unfold quickSortMarks in Hrun. cbn [quickSort] in Hrun.
      destruct (Z.leb_spec hi lo); [|lia]. by injection Hrun as <-.
Qed.

Lemma quickSort_range_witness :
  let a := mkStudent BTechStudent "Amit Kumar" "20CS1001" BR_CSE
             (mkMarks 15 24 10 45) 0 in
  let b := mkStudent MTechStudent "Sunita Sharma" "21EC2001" BR_ECE
             (mkMarks 18 28 12 40) 1 in
  let c := mkStudent PhDStudent "Rahul Verma" "19CS0999" BR_CSE
             (mkMarks 20 30 15 50) 2 in
  (exists out,
     quickSortRoll 6 [c; b; a] 1 2 = Done out /\
     length out = 3%nat /\ out ≡ₚ [c; b; a] /\
     (forall m, m < 1 \/ 2 < m -> getZ out m = getZ [c; b; a] m) /\
     sortedRange rollLe out 1 2 /\
     (2 <= 1 -> out = [c; b; a])) /\
  (exists out,
     quickSortMarks 6 [c; b; a] 1 2 MC_MID = Done out /\
     sortedRange (markLe MC_MID) out 1 2).
Proof.
  intros a b c.
  destruct (quickSort_range [c; b; a] 1 2 MC_MID 6) as [H1 H2].
  - intros _. simpl. lia.
  - vm_compute. lia.
  - split; [exact H1|].
    destruct H2 as (out & Hrun & _ & _ & _ & Hs & _).
    exists out. split; [exact Hrun|]. apply Hs.
    repeat constructor; discriminate.
Defined.

(** The partition loop of [quickSortRoll], started on an in-bounds range of
    two or more cells with the pivot read from the middle cell, ends with
    [j < i], every cell from [lo] up to [i - 1] holding a roll not greater
    than the pivot's and every cell from [j + 1] up to [hi] a roll not
    smaller; the records of the range are only rearranged. *)
Theorem partition_roll_post (arr : list Student) (lo hi : Z) (pivot : Student)
    (fuel : nat) :
  0 <= lo -> lo < hi -> hi < Z.of_nat (length arr) ->
  getZ arr ((lo + hi) ÷ 2) = Some pivot ->
  2 * (hi - lo) + 3 <= Z.of_nat fuel ->
  exists arr1 i j,
    partitionLoop
      (fun x pivot => strcmp (getRoll x) (getRoll pivot) <? 0)
      (fun x pivot => 0 <? strcmp (getRoll x) (getRoll pivot))
      fuel arr pivot lo hi = Done (arr1, i, j) /\
    j < i /\
    (forall m x, lo <= m < i -> getZ arr1 m = Some x ->
       strcmp (getRoll x) (getRoll pivot) <= 0) /\
    (forall m x, j < m <= hi -> getZ arr1 m = Some x ->
       strcmp (getRoll pivot) (getRoll x) <= 0) /\
    arr1 ≡ₚ arr /\
    (forall m, m < lo \/ hi < m -> getZ arr1 m = getZ arr m).
Proof.
  intros Hlo Hlt Hhi Hp Hf.
  assert (lo <= (lo + hi) ÷ 2 <= hi) as Hmid.
  { rewrite Z.quot_div_nonneg by lia. split.
    - apply Z.div_le_lower_bound; lia.
    - apply Z.div_le_upper_bound; lia. }
  assert (rollLe pivot pivot) as Hrefl
    by (unfold rollLe; rewrite strcmp_refl; lia).
  destruct (partitionLoop_spec (fun p => p)
              (fun x pivot => strcmp (getRoll x) (getRoll pivot) <? 0)
              (fun x pivot => 0 <? strcmp (getRoll x) (getRoll pivot))
              rollLe rollLe_total
              (fun x p => roll_below_spec x p)
              (fun x p => roll_above_spec x p)
              pivot lo hi fuel arr lo hi)
    as (arr1 & i & j & Hrun & (_ & Hperm & Hout & _) & Hji & _ & _ & HL & HR);
    [|lia|].
  { split; try (intros; lia).
    - intros _. exists ((lo + hi) ÷ 2), pivot. split_and!; try done; lia.
    - intros _. exists ((lo + hi) ÷ 2), pivot. split_and!; try done; lia.
    - right. exists ((lo + hi) ÷ 2), pivot. split_and!; try done; lia. }
  exists arr1, i, j. split_and!; done.
Qed.

Lemma partition_roll_post_witness :
  let a := mkStudent BTechStudent "Amit Kumar" "20CS1001" BR_CSE
             (mkMarks 15 24 10 45) 0 in
  let b := mkStudent MTechStudent "Sunita Sharma" "21EC2001" BR_ECE
             (mkMarks 18 28 12 40) 1 in
  let c := mkStudent PhDStudent "Rahul Verma" "19CS0999" BR_CSE
             (mkMarks 20 30 15 50) 2 in
  exists arr1 i j,
    partitionLoop
      (fun x pivot => strcmp (getRoll x) (getRoll pivot) <? 0)
      (fun x pivot => 0 <? strcmp (getRoll x) (getRoll pivot))
      7 [c; b; a] b 0 2 = Done (arr1, i, j) /\
    j < i /\
    (forall m x, 0 <= m < i -> getZ arr1 m = Some x ->
       strcmp (getRoll x) (getRoll b) <= 0) /\
    (forall m x, j < m <= 2 -> getZ arr1 m = Some x ->
       strcmp (getRoll b) (getRoll x) <= 0) /\
    arr1 ≡ₚ [c; b; a] /\
    (forall m, m < 0 \/ 2 < m -> getZ arr1 m = getZ [c; b; a] m).
Proof.
  intros a b c.
  apply (partition_roll_post [c; b; a] 0 2 b 7); try lia.
  - simpl. lia.
  - reflexivity.
Defined.

(** When no two records of a snapshot share a roll, [sortByIdentity] returns
    the same array for every arrangement of the snapshot, and returns a
    snapshot that is already in order as it is. *)
Theorem sortByIdentity_order_independent (S1 S2 : list Student) :
  S1 ≡ₚ S2 ->
  NoDup (getRoll <$> S1) ->
  sortByIdentity S1 = sortByIdentity S2 /\
  (StronglySorted strLe (getRoll <$> S1) -> sortByIdentity S1 = Done S1).
Proof.
  intros Hperm Hnd.
  destruct (sortByIdentity_ok S1) as (R1 & Hrun1 & Hp1 & Hs1).
  destruct (sortByIdentity_ok S2) as (R2 & Hrun2 & Hp2 & Hs2).
  apply rolls_sorted in Hs1, Hs2.
  assert (forall R S : list Student,
            R ≡ₚ S1 -> S ≡ₚ S1 ->
            StronglySorted strLe (getRoll <$> R) ->
            StronglySorted strLe (getRoll <$> S) -> R = S) as Huniq.
  { intros R S HR HS HsR HsS.
    apply (fmap_eq_perm_eq getRoll).
    - apply (StronglySorted_unique strLe); [done|done|]. by rewrite HR, HS.
    - by rewrite HR, HS.
    - by rewrite HR. }
  split.
  - rewrite Hrun1, Hrun2. f_equal. apply Huniq; try done.
    by rewrite Hp2, Hperm.
  - intros Hsorted. rewrite Hrun1. f_equal. by apply Huniq.
Qed.

Lemma sortByIdentity_order_independent_witness :
  let a := mkStudent BTechStudent "Amit Kumar" "20CS1001" BR_CSE
             (mkMarks 15 24 10 45) 0 in
  let b := mkStudent MTechStudent "Sunita Sharma" "21EC2001" BR_ECE
             (mkMarks 18 28 12 40) 1 in
  sortByIdentity [b; a] = sortByIdentity [a; b] /\
  (StronglySorted strLe (getRoll <$> [b; a]) ->
   sortByIdentity [b; a] = Done [b; a]).
Proof.
  intros a b. apply (sortByIdentity_order_independent [b; a] [a; b]).
  - apply Permutation_swap.
  - apply NoDup_cons. split; [|apply NoDup_singleton].
    intros H%list_elem_of_singleton. discriminate H.
Defined.

(** ** Records in strict order *)

Lemma sorted_before {A} (R : relation A) (l : list A) (a b : A) :
  StronglySorted R l -> a ∈ l -> b ∈ l -> ~ R b a ->
  (forall x, R x x) -> [a; b] `sublist_of` l.
Proof.
  intros Hs Ha Hb Hnot Hrefl.
  assert (a <> b) as Hne by (intros ->; by apply Hnot).
  apply list_elem_of_split in Ha as (l1 & l2 & ->).
  apply StronglySorted_app in Hs as (Hcross & _ & Hs2).
  apply elem_of_app in Hb as [Hb|Hb].
  - destruct Hnot. apply Hcross; [done|by left].
  - apply elem_of_cons in Hb as [->|Hb]; [done|].
    apply sublist_inserts_l. constructor.
    by apply singleton_sublist_l.
Qed.

Lemma StronglySorted_fmap_inv {A B} (f : A -> B) (R : relation B) l :
  StronglySorted R (f <$> l) -> StronglySorted (fun x y => R (f x) (f y)) l.
Proof.
  induction l as [|x l IH]; [constructor|].
  rewrite fmap_cons. intros [Hall Hs]%StronglySorted_cons.
  constructor; [by apply IH|]. rewrite Forall_fmap in Hall.
  eapply Forall_impl; [exact Hall|]. by intros y Hy.
Qed.

(** In the array that [sortByIdentity] returns a record stands before every
    record of the snapshot with a greater roll; and when no mark of the
    chosen component in the snapshot is a NaN, in the array that
    [sortByField] returns a record stands before every record with a greater
    mark in that component. *)
Theorem quicksorts_strict_order (S : list Student) (mc : MarkComponent)
    (a b : Student) :
  a ∈ S -> b ∈ S ->
  (strcmp (getRoll a) (getRoll b) < 0 ->
   exists out, sortByIdentity S = Done out /\ before a b out) /\
  (Forall (numeric mc) S ->
   dlt (getComponent a mc) (getComponent b mc) = true ->
   exists out, sortByField S mc = Done out /\ before a b out).
Proof.
  intros Ha Hb. split.
  - intros Hlt. destruct (sortByIdentity_ok S) as (out & Hrun & Hperm & Hs).
    exists out. split; [done|]. apply (sorted_before rollLe); try done.
    + by rewrite Hperm.
    + by rewrite Hperm.
    + unfold rollLe. rewrite (strcmp_antisym (getRoll a) (getRoll b)). lia.
    + intros x. unfold rollLe. by rewrite strcmp_refl.
  - intros Hnum Hlt.
    destruct (sortByField_ok S mc Hnum) as (out & Hrun & Hperm & Hs & _).
    exists out. split; [done|]. apply (sorted_before (markLeT mc)); try done.
    + by rewrite Hperm.
    + by rewrite Hperm.
    + unfold markLeT.
      destruct (getComponent a mc), (getComponent b mc); try done.
      cbn [dlt tlt] in *. congruence.
    + intros x. by destruct (markLeT_total mc x x).
Qed.

Lemma quicksorts_strict_order_witness :
  let a := mkStudent BTechStudent "Amit Kumar" "20CS1001" BR_CSE
             (mkMarks 15 24 10 45) 0 in
  let b := mkStudent MTechStudent "Sunita Sharma" "21EC2001" BR_ECE
             (mkMarks 18 28 12 40) 1 in
  (exists out, sortByIdentity [b; a] = Done out /\ before a b out) /\
  (exists out, sortByField [b; a] MC_MID = Done out /\ before a b out).
Proof.
  intros a b.
  destruct (quicksorts_strict_order [b; a] MC_MID a b) as [H1 H2].
  - right. left.
  - left.
  - split; [apply H1; reflexivity|apply H2; [|reflexivity]].
    repeat constructor; discriminate.
Defined.

(** In the array that [sortByNameUsingTrie] returns a record stands before
    every record of the course whose normalized name is greater. *)
Theorem sortByName_strict_order (c : Course) (a b : Student) :
  a ∈ c -> b ∈ c ->
  keyLt (keyOf a) (keyOf b) ->
  exists recs,
    sortByNameUsingTrie c = Done (arrayOf recs) /\ before a b recs.
Proof.
  intros Ha Hb Hlt. exists (nameOrder c).
  destruct (nameOrder_spec c) as (Hperm & Hs & _).
  split; [apply sortByNameUsingTrie_eq|].
  apply StronglySorted_fmap_inv in Hs.
  apply (sorted_before (fun x y => keyLe (keyOf x) (keyOf y))); try done.
  - by rewrite Hperm.
  - by rewrite Hperm.
  - unfold keyLt, keyLe in *. by rewrite Hlt.
  - intros x. apply keyLe_refl.
Qed.

Lemma sortByName_strict_order_witness :
  let a := mkStudent BTechStudent "Amit Kumar" "20CS1001" BR_CSE Marks0 0 in
  let b := mkStudent MTechStudent "Sunita Sharma" "21EC2001" BR_ECE Marks0 1 in
  exists recs,
    sortByNameUsingTrie [b; a] = Done (arrayOf recs) /\ before a b recs.
Proof.
  intros a b. apply (sortByName_strict_order [b; a] a b).
  - right. left.
  - left.
  - reflexivity.
Defined.

(** ** The alphabet of the trie *)

Lemma tolower_letter c : isalpha c = true -> 97 <= tolower c <= 122.
Proof.
  unfold isalpha, tolower, isupper, islower.
  destruct (Z.leb_spec 65 (uchar c)), (Z.leb_spec (uchar c) 90),
    (Z.leb_spec 97 (uchar c)), (Z.leb_spec (uchar c) 122);
    simpl; try done; lia.
Qed.

(** [chIndex] never leaves the table of 27 children, and two characters get
    the same index exactly when neither is a letter or both are the same
    letter up to case: the space, the hyphen and every other non-letter
    share the last slot. *)
Theorem chIndex_classes (c1 c2 : ascii) :
  (chIndex c1 < TRIE_ALPHABET)%nat /\
  (chIndex c1 = chIndex c2 <->
     (isalpha c1 = false /\ isalpha c2 = false) \/
     (isalpha c1 = true /\ isalpha c2 = true /\ tolower c1 = tolower c2)).
Proof.
  split; [apply chIndex_lt|].
  destruct (isalpha c1) eqn:E1, (isalpha c2) eqn:E2.
  - destruct (chIndex_letter c1 E1) as [-> _].
    destruct (chIndex_letter c2 E2) as [-> _].
    pose proof (tolower_letter c1 E1). pose proof (tolower_letter c2 E2).
    split.
    + intros Heq. right. split_and!; try done. lia.
    + intros [[? _]|(_ & _ & ->)]; done.
  - destruct (chIndex_letter c1 E1) as [_ Hlt].
    rewrite (chIndex_other c2 E2).
    split; [lia|]. intros [[? _]|(_ & ? & _)]; done.
  - destruct (chIndex_letter c2 E2) as [_ Hlt].
    rewrite (chIndex_other c1 E1).
    split; [lia|]. intros [[_ ?]|(? & _)]; done.
  - rewrite (chIndex_other c1 E1), (chIndex_other c2 E2).
    split; [by left|done].
Qed.

(** ** The output array of the name sort *)

(** [sortByNameUsingTrie] returns the null pointer exactly for a course
    without records.  Otherwise the traversal writes every cell of the
    output array once, within its bounds, and stops with [idx] equal to the
    size of the course: the array returned has one cell per record and no
    null cell. *)
Theorem sortByName_array_full (c : Course) :
  (sortByNameUsingTrie c = Done None <-> c = []) /\
  (c <> [] ->
   exists out,
     sortByNameUsingTrie c = Done (Some out) /\
     length out = length c /\
     Forall is_Some out /\
     traverseCollect (buildTrie c) (replicate (length c) None, 0)
       = Done (out, size c)).
Proof.
  rewrite sortByNameUsingTrie_eq.
  destruct (nameOrder_spec c) as (Hperm & _).
  pose proof (Permutation_length Hperm) as Hlen.
  split.
  - destruct c as [|s c].
    + apply Permutation_nil_r in Hperm. by rewrite Hperm.
    + destruct (nameOrder (s :: c)) eqn:E; [by simpl in Hlen|done].
  - intros Hne. exists (Some <$> nameOrder c). split_and!.
    + destruct (nameOrder c) eqn:E; [|done].
      symmetry in Hperm. apply Permutation_nil_r in Hperm. done.
    + by rewrite length_fmap.
    + apply Forall_fmap, Forall_forall. intros x _. by eexists.
    + unfold nameOrder in Hlen. rewrite length_fmap in Hlen.
      change 0 with (Z.of_nat 0).
      rewrite traverseCollect_spec by (rewrite length_replicate; lia).
      unfold size. rewrite Hlen. do 2 f_equal.
      fold (nameOrder c). unfold fill.
      rewrite take_0, app_nil_l, Nat.add_0_l.
      rewrite drop_ge; [by rewrite app_nil_r|].
      rewrite length_replicate. unfold nameOrder. rewrite length_fmap. lia.
Qed.

(** ** Adding to a course *)

(** After [course += s] the lookup of the roll of [s] returns [s], the
    lookup of every other roll is as before, and removing that roll again
    gives back the course as it was. *)
Theorem Course_add_roundtrip (s : Student) (c : Course) (key : string) :
  findByRoll (Course_add s c) (getRoll s) = Some s /\
  (key <> getRoll s ->
   findByRoll (Course_add s c) key = findByRoll c key) /\
  removeByRoll (Course_add s c) (getRoll s) = (c, true) /\
  size (Course_add s c) = size c + 1.
Proof.
  unfold Course_add. cbn [findByRoll removeByRoll].
  rewrite strcmp_refl. cbn. split_and!; try done.
  - intros Hne. destruct (Z.eqb_spec (strcmp (getRoll s) key) 0) as [E|_];
      [|done].
    apply strcmp_eq in E. congruence.
  - unfold size. simpl. lia.
Qed.
